(** * An entity-component-system registry (src/ECS/ECS.h)

    A shallow embedding of the ECS header: component identities handed out
    by a static counter, 32-bit signatures, type-erased component pools, the
    systems map keyed by system kind and the registry that ties them
    together.  C++ calls are functions from a state to an [outcome]: a call
    returns, throws [std::out_of_range], aborts, or has undefined behaviour. *)

From stdpp Require Import gmap strings list fin_maps sorting pretty.
From Stdlib Require Import NArith Lia.

Local Open Scope N_scope.

(** A lemma depends on the section variables its statement names. *)
Set Default Proof Using "Type".

(** ** Machine integers *)

(** [unsigned int] is 32 bits wide; arithmetic on it wraps. *)
Definition UINT_MODULUS : N := 2 ^ 32.
Definition wrap32 (x : N) : N := x mod UINT_MODULUS.

(** [const unsigned int MAX_COMPONENTS = 32;] *)
Definition MAX_COMPONENTS : N := 32.

(** ** Outcomes of a call and the state monad over them *)

Inductive outcome (St A : Type) : Type :=
| Returns (a : A) (s : St)   (* normal return, in the state reached *)
| Throws (s : St)            (* std::out_of_range, in the state at the throw *)
| Aborts                     (* failed assertion or std::abort *)
| Undefined.                 (* undefined behaviour *)
Arguments Returns {St A} a s.
Arguments Throws {St A} s.
Arguments Aborts {St A}.
Arguments Undefined {St A}.

(** Failing fast: the process is stopped on the spot by an assertion. *)
Definition fails_fast {St A} (o : outcome St A) : Prop :=
  match o with Aborts => True | _ => False end.

Definition M (St A : Type) : Type := St → outcome St A.

#[global] Instance M_ret St : MRet (M St) := λ A a s, Returns a s.
#[global] Instance M_bind St : MBind (M St) := λ A B k m s,
  match m s with
  | Returns a s' => k a s'
  | Throws s' => Throws s'
  | Aborts => Aborts
  | Undefined => Undefined
  end.

Definition gets {St A} (f : St → A) : M St A := λ s, Returns (f s) s.
Definition modify {St} (f : St → St) : M St unit := λ s, Returns tt (f s).
Definition throw {St A} : M St A := λ s, Throws s.
Definition undefined {St A} : M St A := λ _, Undefined.

(** Run a computation on a part [get] of a larger state, writing the part
    back with [set]; a throw keeps what was written before it. *)
Definition zoom {St Sub A} (get : St → Sub) (set : Sub → St → St)
    (m : M Sub A) : M St A := λ s,
  match m (get s) with
  | Returns a sub => Returns a (set sub s)
  | Throws sub => Throws (set sub s)
  | Aborts => Aborts
  | Undefined => Undefined
  end.

(** ** std::vector *)

(** [v.resize(n, x)]: truncate, or pad with copies of [x]. *)
Definition vec_resize {A} (v : list A) (n : N) (x : A) : list A :=
  take (N.to_nat n) v ++ replicate (N.to_nat n - length v) x.

(** [v.size()] *)
Definition vec_size {A} (v : list A) : N := N.of_nat (length v).

(** [v[i]] as an rvalue: out of range is undefined behaviour. *)
Definition vec_at {St A} (v : list A) (i : N) : M St A :=
  match v !! N.to_nat i with
  | Some x => mret x
  | None => undefined
  end.

(** ** Signature: [std::bitset<MAX_COMPONENTS>] *)

(** A signature is the number whose binary digits are the bits of the set. *)
Abbreviation Signature := N (only parsing).

(** [s.set(pos, val)]: throws std::out_of_range when [pos] is not a bit
    of the set. *)
Definition bitset_set {St} (s : Signature) (pos : N) (val : bool) : M St Signature :=
  if decide (pos < MAX_COMPONENTS)
  then mret (if val then N.setbit s pos else N.clearbit s pos)
  else throw.

(** [s.test(pos)] *)
Definition bitset_test {St} (s : Signature) (pos : N) : M St bool :=
  if decide (pos < MAX_COMPONENTS) then mret (N.testbit s pos) else throw.

(** ** Component identities *)

(** The static state behind [Component<T>::GetId]: the counter
    [IComponent::nextId] and, per instantiation [T], the function-local
    static [id], which exists once [GetId] has run for [T].  Component
    kinds are named by their type name. *)
Record IdState : Type := mkIdState {
  nextId : N;
  ids : gmap string N
}.

(** Modelled from the spec: the definition of [IComponent::nextId] (in
    ECS.cpp, not part of the sources at hand); ids are handed out
    "starting at 0". *)
Definition nextId_init : N := 0.

Definition IdState_init : IdState := mkIdState nextId_init ∅.

(** [static auto id = nextId++; return id;] *)
Definition GetId (T : string) : M IdState N := λ st,
  match ids st !! T with
  | Some id => Returns id st
  | None =>
      Returns (nextId st)
        (mkIdState (wrap32 (nextId st + 1)) (<[T := nextId st]> (ids st)))
  end.

(** ** Entity *)

(** The handle of an entity, as the registry reads it: its [id].  The
    class has a second member, the pointer [registry] of line 47, which
    only the forwarding members of lines 225 to 247 read; no operator of
    the class and no member of [Registry] looks at it, and it is left out.
    What is said of an entity below is therefore said of its id. *)
Record Entity : Type := mkEntity { id : N }.

#[global] Instance Entity_eq_dec : EqDecision Entity.
Proof. solve_decision. Defined.
#[global] Instance Entity_countable : Countable Entity :=
  inj_countable' id mkEntity (λ e, match e with mkEntity _ => eq_refl end).

(** Modelled from the spec: [Entity::GetId] (ECS.cpp), the accessor of the
    "numeric id" of the handle. *)
Definition Entity_GetId (e : Entity) : N := id e.

(** [operator<]: entities are ordered by id; this is the order a
    [std::set<Entity>] is traversed in. *)
Definition Entity_le (a b : Entity) : Prop := id a ≤ id b.
#[global] Instance Entity_le_dec : RelDecision Entity_le.
Proof. intros a b. unfold Entity_le. apply _. Defined.

Definition set_iter (s : gset Entity) : list Entity :=
  merge_sort Entity_le (elements s).

(** The comparison operators of the class, each on the ids alone:
    [operator==] is [other.id == id], [operator!=] is [other.id != id],
    [operator>] is [id > other.id] and [operator<] is [id < other.id]. *)
Definition Entity_eq (a other : Entity) : bool := id other =? id a.
Definition Entity_ne (a other : Entity) : bool := negb (id other =? id a).
Definition Entity_gt (a other : Entity) : bool := id other <? id a.
Definition Entity_lt (a other : Entity) : bool := id a <? id other.

(** ** System *)

Record System : Type := mkSystem {
  componentSignature : Signature;
  entities : list Entity
}.

(** [System() = default] *)
Definition System_new : System := mkSystem 0 [].

(** [RequireComponent<T>()] *)
Definition RequireComponent (T : string) (sys : System) : M IdState System :=
  componentId ← GetId T;
  sig ← bitset_set (componentSignature sys) componentId true;
  mret (mkSystem sig (entities sys)).

(** A constructor that declares the kinds [Ts], in that order. *)
Fixpoint RequireComponents (Ts : list string) (sys : System) : M IdState System :=
  match Ts with
  | [] => mret sys
  | T :: Ts' => sys' ← RequireComponent T sys; RequireComponents Ts' sys'
  end.

(** Modelled from the spec: [System::AddEntityToSystem] (ECS.cpp) inserts
    the entity into the matched list and "adding an already-present entity
    is a no-op". *)
Definition AddEntityToSystem (e : Entity) (sys : System) : System :=
  if decide (e ∈ entities sys) then sys
  else mkSystem (componentSignature sys) (entities sys ++ [e]).

(** Modelled from the spec: [System::RemoveEntityFromSystem] (ECS.cpp)
    erases the entity; "removing an absent one is a no-op". *)
Definition RemoveEntityFromSystem (e : Entity) (sys : System) : System :=
  mkSystem (componentSignature sys) (filter (λ x, x ≠ e) (entities sys)).

(** Modelled from the spec: [System::GetSystemEntities] (ECS.cpp), the
    "snapshot of currently matched entities". *)
Definition GetSystemEntities (sys : System) : list Entity := entities sys.

(** Modelled from the spec: [System::GetComponentSignature] (ECS.cpp), the
    accessor of the required signature. *)
Definition GetComponentSignature (sys : System) : Signature :=
  componentSignature sys.

(** Iterate a loop body over the elements of a container, in order. *)
Fixpoint for_each {St A} (body : A → M St unit) (xs : list A) : M St unit :=
  match xs with
  | [] => mret tt
  | x :: xs' => body x;; for_each body xs'
  end.

(** Component payloads are plain records; [value] is the type-erased
    content of an [IPool].  What the templates ask of a component type [T]
    is a default constructor: [T_default T] is the [T()] that
    [std::vector<T>::resize] fills new slots with. *)
Class DefaultConstructible (value : Type) : Type :=
  T_default : string → value.

Section ECS.

Context {value : Type} `{!DefaultConstructible value}.

(** ** Pool<T> *)

Record Pool : Type := mkPool { data : list value }.

(** [Pool(unsigned int size = 100) { data.resize(size); }] *)
Definition Pool_new (T : string) : Pool := mkPool (vec_resize [] 100 (T_default T)).

Definition Pool_IsEmpty (p : Pool) : bool := bool_decide (data p = []).

(** [data.size()] converted to [unsigned int]. *)
Definition Pool_GetSize (p : Pool) : N := wrap32 (vec_size (data p)).

Definition Pool_Resize (T : string) (n : N) (p : Pool) : Pool :=
  mkPool (vec_resize (data p) n (T_default T)).

Definition Pool_Clear (p : Pool) : Pool := mkPool [].

Definition Pool_Add (object : value) (p : Pool) : Pool := mkPool (data p ++ [object]).

(** [data[index] = object] *)
Definition Pool_Set {St} (index : N) (object : value) (p : Pool) : M St Pool :=
  if decide (index < vec_size (data p))
  then mret (mkPool (<[N.to_nat index := object]> (data p)))
  else undefined.

(** [return data[index]] *)
Definition Pool_Get {St} (index : N) (p : Pool) : M St value := vec_at (data p) index.

(** [T &operator[](unsigned int index) { return data[index]; }] *)
Definition Pool_index {St} (index : N) (p : Pool) : M St value :=
  vec_at (data p) index.

(** ** Registry *)

(** A [std::shared_ptr<IPool>] is owned by its slot of [componentPools]
    alone, so a slot holds the pool itself; [None] is [nullptr].  The same
    goes for the systems, owned by their entry of the map. *)
Record Registry : Type := mkRegistry {
  numEntities : N;
  entitiesToBeAdded : gset Entity;
  entitiesToBeKilled : gset Entity;
  componentPools : list (option Pool);
  entityComponentSignatures : list Signature;
  systems : gmap string System
}.

Definition Registry_new : Registry := mkRegistry 0 ∅ ∅ [] [] ∅.

Definition with_numEntities (n : N) (r : Registry) : Registry :=
  mkRegistry n (entitiesToBeAdded r) (entitiesToBeKilled r)
    (componentPools r) (entityComponentSignatures r) (systems r).
Definition with_entitiesToBeAdded (s : gset Entity) (r : Registry) : Registry :=
  mkRegistry (numEntities r) s (entitiesToBeKilled r)
    (componentPools r) (entityComponentSignatures r) (systems r).
Definition with_entitiesToBeKilled (s : gset Entity) (r : Registry) : Registry :=
  mkRegistry (numEntities r) (entitiesToBeAdded r) s
    (componentPools r) (entityComponentSignatures r) (systems r).
Definition with_componentPools (ps : list (option Pool)) (r : Registry) : Registry :=
  mkRegistry (numEntities r) (entitiesToBeAdded r) (entitiesToBeKilled r)
    ps (entityComponentSignatures r) (systems r).
Definition with_entityComponentSignatures (sigs : list Signature) (r : Registry)
    : Registry :=
  mkRegistry (numEntities r) (entitiesToBeAdded r) (entitiesToBeKilled r)
    (componentPools r) sigs (systems r).
Definition with_systems (m : gmap string System) (r : Registry) : Registry :=
  mkRegistry (numEntities r) (entitiesToBeAdded r) (entitiesToBeKilled r)
    (componentPools r) (entityComponentSignatures r) m.

(** The process state: the component-id statics and the registry. *)
Record World : Type := mkWorld { cids : IdState; registry : Registry }.

Definition World_init : World := mkWorld IdState_init Registry_new.

Definition in_ids {A} (m : M IdState A) : M World A :=
  zoom cids (λ c w, mkWorld c (registry w)) m.
Definition in_reg {A} (m : M Registry A) : M World A :=
  zoom registry (λ r w, mkWorld (cids w) r) m.

(** Dereferencing a pool pointer; [nullptr] is undefined behaviour. *)
Definition deref {St} (p : option Pool) : M St Pool :=
  match p with Some pool => mret pool | None => undefined end.

(** [Registry::AddComponent<TComponent>(entity, args...)]; [newComponent]
    is the [TComponent(args...)] the call constructs.  The calls to the
    logger are left out. *)
Definition AddComponent (T : string) (entity : Entity) (newComponent : value)
    : M World unit :=
  componentId ← in_ids (GetId T);
  let entityId := Entity_GetId entity in
  in_reg (
    pools ← gets componentPools;
    (if decide (vec_size pools ≤ componentId)
     then modify (with_componentPools
                    (vec_resize pools (wrap32 (componentId + 1)) None))
     else mret tt);;
    pools ← gets componentPools;
    slot ← vec_at pools componentId;
    (match slot with
     | None => modify (with_componentPools
                         (<[N.to_nat componentId := Some (Pool_new T)]> pools))
     | Some _ => mret tt
     end);;
    pools ← gets componentPools;
    slot ← vec_at pools componentId;
    componentPool ← deref slot;
    n ← gets numEntities;
    let componentPool :=
      if decide (Pool_GetSize componentPool ≤ entityId)
      then Pool_Resize T n componentPool else componentPool in
    componentPool ← Pool_Set entityId newComponent componentPool;
    modify (with_componentPools
              (<[N.to_nat componentId := Some componentPool]> pools));;
    sigs ← gets entityComponentSignatures;
    sig ← vec_at sigs entityId;
    sig ← bitset_set sig componentId true;
    modify (with_entityComponentSignatures (<[N.to_nat entityId := sig]> sigs))).



(** [Registry::RemoveComponent<TComponent>(entity)] *)
Definition RemoveComponent (T : string) (entity : Entity) : M World unit :=
  componentId ← in_ids (GetId T);
  let entityId := Entity_GetId entity in
  in_reg (
    sigs ← gets entityComponentSignatures;
    sig ← vec_at sigs entityId;
    sig ← bitset_set sig componentId false;
    modify (with_entityComponentSignatures (<[N.to_nat entityId := sig]> sigs))).

(** [Registry::GetComponent<TComponent>(entity)] *)
Definition GetComponent (T : string) (entity : Entity) : M World value :=
  componentId ← in_ids (GetId T);
  let entityId := Entity_GetId entity in
  in_reg (
    pools ← gets componentPools;
    slot ← vec_at pools componentId;
    componentPool ← deref slot;
    Pool_Get entityId componentPool).

(** Modelled from the spec: [Registry::HasComponent<TComponent>] is
    declared in the header but defined nowhere in it; the spec gives it as
    read-only and "returns bit test" of bit [IdOf(T)] of the entity's
    signature. *)
Definition HasComponent (T : string) (entity : Entity) : M World bool :=
  componentId ← in_ids (GetId T);
  let entityId := Entity_GetId entity in
  in_reg (
    sigs ← gets entityComponentSignatures;
    sig ← vec_at sigs entityId;
    bitset_test sig componentId).

(** [Registry::AddSystem<TSystem>(args...)]; [ctor] is the constructor
    [TSystem(args...)] run by [make_shared].  [unordered_map::insert]
    keeps an entry that is already there. *)
Definition AddSystem (S : string) (ctor : M IdState System) : M World unit :=
  newSystem ← in_ids ctor;
  in_reg (modify (λ r,
    match systems r !! S with
    | Some _ => r
    | None => with_systems (<[S := newSystem]> (systems r)) r
    end)).

(** [Registry::RemoveSystem<TSystem>()]: erasing the end iterator is
    undefined behaviour. *)
Definition RemoveSystem (S : string) : M Registry unit :=
  system ← gets (λ r, systems r !! S);
  match system with
  | Some _ => modify (λ r, with_systems (delete S (systems r)) r)
  | None => undefined
  end.

(** [Registry::HasSystem<TSystem>()] *)
Definition HasSystem (S : string) : M Registry bool :=
  gets (λ r, bool_decide (is_Some (systems r !! S))).

(** [Registry::GetSystem<TSystem>()]: dereferencing the end iterator is
    undefined behaviour. *)
Definition GetSystem (S : string) : M Registry System :=
  system ← gets (λ r, systems r !! S);
  match system with
  | Some sys => mret sys
  | None => undefined
  end.

(** Modelled from the spec: [Registry::CreateEntity] (ECS.cpp): "allocate
    id = entityCount++; grow perEntitySignature; enqueue id into toAdd". *)
Definition CreateEntity : M Registry Entity :=
  entityId ← gets numEntities;
  modify (with_numEntities (wrap32 (entityId + 1)));;
  sigs ← gets entityComponentSignatures;
  (if decide (vec_size sigs ≤ entityId)
   then modify (with_entityComponentSignatures (vec_resize sigs (entityId + 1) 0))
   else mret tt);;
  let entity := mkEntity entityId in
  modify (λ r, with_entitiesToBeAdded ({[entity]} ∪ entitiesToBeAdded r) r);;
  mret entity.

(** Modelled from the spec: enqueuing a kill puts the entity into the
    [toKill] set; the header declares the set and no operation filling it. *)
Definition EnqueueKill (entity : Entity) : M Registry unit :=
  modify (λ r, with_entitiesToBeKilled ({[entity]} ∪ entitiesToBeKilled r) r).

(** Modelled from the spec: the matching rule of [AddEntityToSystems],
    "bitwise AND of the entity's current signature with a system's required
    signature must equal the required signature". *)
Definition interested (entitySig systemSig : Signature) : bool :=
  bool_decide (N.land entitySig systemSig = systemSig).

(** Modelled from the spec: [Registry::AddEntityToSystems] (ECS.cpp): "for
    every registered system, if (perEntitySignature[e.id] &
    system.requiredSignature) == system.requiredSignature, call
    system.AddEntityToSystem(e)". *)
Definition AddEntityToSystems (entity : Entity) : M Registry unit :=
  sigs ← gets entityComponentSignatures;
  sig ← vec_at sigs (Entity_GetId entity);
  modify (λ r, with_systems
    ((λ sys, if interested sig (GetComponentSignature sys)
             then AddEntityToSystem entity sys else sys) <$> systems r) r).

(** Modelled from the spec: the kill half of [Update], "for every system,
    call RemoveEntityFromSystem(e)". *)
Definition RemoveEntityFromSystems (entity : Entity) : M Registry unit :=
  modify (λ r, with_systems (RemoveEntityFromSystem entity <$> systems r) r).

(** Modelled from the spec: [Registry::Update] (ECS.cpp): "for each e in
    toAdd: call AddEntityToSystems(e); clear toAdd. For each e in toKill:
    for every system, call RemoveEntityFromSystem(e); clear toKill". *)
Definition Update : M Registry unit :=
  toAdd ← gets entitiesToBeAdded;
  for_each AddEntityToSystems (set_iter toAdd);;
  modify (with_entitiesToBeAdded ∅);;
  toKill ← gets entitiesToBeKilled;
  for_each RemoveEntityFromSystems (set_iter toKill);;
  modify (with_entitiesToBeKilled ∅).

(** ** A process run as a sequence of calls *)

(** The ids returned by a sequence of [GetId] calls, one per kind listed. *)
Fixpoint GetIds (Ts : list string) : M IdState (list N) :=
  match Ts with
  | [] => mret []
  | T :: Ts' => i ← GetId T; rest ← GetIds Ts'; mret (i :: rest)
  end.

(** The public operations of the registry, as a client issues them. *)
Inductive op : Type :=
| OpCreateEntity
| OpEnqueueKill (e : Entity)
| OpUpdate
| OpAddComponent (T : string) (e : Entity) (v : value)
| OpRemoveComponent (T : string) (e : Entity)
| OpHasComponent (T : string) (e : Entity)
| OpGetComponent (T : string) (e : Entity)
| OpAddSystem (S : string) (requires : list string)
| OpRemoveSystem (S : string)
| OpHasSystem (S : string)
| OpGetSystem (S : string)
| OpAddEntityToSystems (e : Entity).

Definition step (o : op) : M World unit :=
  match o with
  | OpCreateEntity => in_reg CreateEntity;; mret tt
  | OpEnqueueKill e => in_reg (EnqueueKill e)
  | OpUpdate => in_reg Update
  | OpAddComponent T e v => AddComponent T e v
  | OpRemoveComponent T e => RemoveComponent T e
  | OpHasComponent T e => HasComponent T e;; mret tt
  | OpGetComponent T e => GetComponent T e;; mret tt
  | OpAddSystem K Ts => AddSystem K (RequireComponents Ts System_new)
  | OpRemoveSystem K => in_reg (RemoveSystem K)
  | OpHasSystem K => in_reg (HasSystem K);; mret tt
  | OpGetSystem K => in_reg (GetSystem K);; mret tt
  | OpAddEntityToSystems e => in_reg (AddEntityToSystems e)
  end.

Definition run (ops : list op) : M World unit := for_each step ops.

(** ** The vocabulary of the properties *)

(** An entity is valid in a registry that has created it: its id is below
    the entity count and has a signature slot. *)
Definition valid_entity (r : Registry) (e : Entity) : Prop :=
  id e < numEntities r ∧ id e < vec_size (entityComponentSignatures r).

(** A relation between registries, read between the worlds holding them. *)
Definition on_reg (Q : relation Registry) : relation World :=
  λ w w', Q (registry w) (registry w').

Definition on_ids (Q : relation IdState) : relation World :=
  λ w w', Q (cids w) (cids w').

(** The systems, with their matched entities, are the same. *)
Definition same_systems : relation Registry := λ r r', systems r' = systems r.

(** Everything but the systems is the same. *)
Definition same_but_systems : relation Registry := λ r r',
  numEntities r' = numEntities r ∧
  entitiesToBeAdded r' = entitiesToBeAdded r ∧
  entitiesToBeKilled r' = entitiesToBeKilled r ∧
  componentPools r' = componentPools r ∧
  entityComponentSignatures r' = entityComponentSignatures r.

(** The signature of entity [x] covers what system [sys] requires. *)
Definition matches (r : Registry) (x : Entity) (sys : System) : Prop :=
  ∃ sig, entityComponentSignatures r !! N.to_nat (id x) = Some sig ∧
         interested sig (GetComponentSignature sys) = true.

(** Sizes fit an [unsigned int]: the entity count and the size of every
    pool. *)
Definition Registry_wf (r : Registry) : Prop :=
  numEntities r < UINT_MODULUS ∧
  ∀ i p, componentPools r !! i = Some (Some p) → vec_size (data p) < UINT_MODULUS.

(** The pools are the same and the entity count still fits. *)
Definition pools_kept : relation Registry := λ r r',
  componentPools r' = componentPools r ∧
  (numEntities r < UINT_MODULUS → numEntities r' < UINT_MODULUS).

(** The slots of the pools that a sequence of operations writes: slot
    [j] of the pool of kind id [i], for an [AddComponent<T>(e, _)] with
    [IdOf(T) = i] and [e.id = j]. *)
Definition writes (ops : list op) (st : IdState) (i j : nat) : Prop :=
  ∃ T e v, OpAddComponent T e v ∈ ops ∧
           (∃ cid, ids st !! T = Some cid ∧ N.to_nat cid = i) ∧
           N.to_nat (id e) = j.

(** Every pool there was is still there, no smaller, and holds what it
    held in every slot that was not written. *)
Definition pools_grow_except (written : nat → nat → Prop) : relation Registry :=
  λ r r', ∀ i p,
    componentPools r !! i = Some (Some p) →
    ∃ p', componentPools r' !! i = Some (Some p') ∧
          (length (data p) ≤ length (data p'))%nat ∧
          ∀ j x, ¬ written i j → data p !! j = Some x → data p' !! j = Some x.

End ECS.

(** Predicates on outcomes, on the component ids and on the systems map. *)

(** The state a call leaves behind, when there is one. *)
Definition final_state {St A} (o : outcome St A) : option St :=
  match o with
  | Returns _ s => Some s
  | Throws s => Some s
  | Aborts | Undefined => None
  end.

(** A property of the state that every call of [m] keeps, whether it
    returns or throws. *)
Definition preserves {St A} (P : St → St → Prop) (m : M St A) : Prop :=
  ∀ s s', final_state (m s) = Some s' → P s s'.

(** A call that leaves the state alone. *)
Definition stateless {St A} (m : M St A) : Prop :=
  ∀ s s', final_state (m s) = Some s' → s' = s.

(** The counter counts the kinds seen so far (modulo the width of
    [unsigned int]). *)
Definition counts_kinds (st : IdState) : Prop :=
  nextId st = wrap32 (N.of_nat (size (dom (ids st)))).

(** The ids handed out so far are below the counter and belong to one kind
    each; this holds as long as the counter has not wrapped around. *)
Definition ids_wf (st : IdState) : Prop :=
  (∀ T i, ids st !! T = Some i → i < nextId st) ∧
  (∀ T U i, ids st !! T = Some i → ids st !! U = Some i → T = U).

(** Ids once handed out stay. *)
Definition ids_keep : relation IdState := λ st st',
  ∀ T i, ids st !! T = Some i → ids st' !! T = Some i.

(** Two maps of systems with the same kinds, related kind by kind. *)
Definition systems_related (R : System → System → Prop)
    (m m' : gmap string System) : Prop :=
  ∀ K, option_Forall2 R (m !! K) (m' !! K).

(** * Concrete worlds *)

(** ** SpriteComponent.h *)

Record SpriteComponent : Type := mkSpriteComponent { width : Z; height : Z }.

(** [SpriteComponent(int width = 10, int height = 10)] *)
Definition SpriteComponent_default : SpriteComponent := mkSpriteComponent 10 10.

(** Every kind of the runs below carries a sprite record. *)
Definition sprite_kinds : DefaultConstructible SpriteComponent :=
  λ T, SpriteComponent_default.

Definition e0 : Entity := mkEntity 0.

(** The world after one [CreateEntity()]. *)
Definition world_one_entity : @World SpriteComponent :=
  mkWorld IdState_init (mkRegistry 1 {[e0]} ∅ [] [0] ∅).

(** The kinds [C0], [C1], ... *)
Definition kinds (n : nat) : list string := (λ k, "C" +:+ pretty k) <$> seq 0 n.

(** A registry with entity 0 holding the kinds 0 and 1, not yet matched
    into the system [S] that requires both. *)
Definition system_AB : System := mkSystem 3 [].
Definition registry_AB : @Registry SpriteComponent :=
  mkRegistry 1 {[e0]} ∅ [] [3] {["S" := system_AB]}.

(** The frame of a game: an entity with two components is matched into a
    system requiring both, then loses one of them. *)
Definition frame_ops : list (@op SpriteComponent) :=
  [ OpCreateEntity;
    OpAddComponent "A" e0 (mkSpriteComponent 1 2);
    OpAddComponent "B" e0 (mkSpriteComponent 5 0);
    OpAddSystem "S" ["A"; "B"];
    OpUpdate;
    OpRemoveComponent "A" e0;
    OpUpdate ].

(** Entity 0 holding the kinds 0 and 1, both known by name. *)
Definition world_AB : @World SpriteComponent :=
  mkWorld (mkIdState 2 (<["B" := 1]> (<["A" := 0]> ∅)))
          (mkRegistry 1 ∅ ∅ [] [3] ∅).

(** The same with system [S] registered and holding entity 0. *)
Definition world_S : @World SpriteComponent :=
  mkWorld (cids world_AB)
          (mkRegistry 1 ∅ ∅ [] [3] {["S" := mkSystem 3 [e0]]}).


(** One entity, and a kind that was the 33rd to ask for its id. *)
Definition world_kind_32 : @World SpriteComponent :=
  mkWorld (mkIdState 33 {["C32" := 32]}) (mkRegistry 1 {[e0]} ∅ [] [0] ∅).

(** * Properties *)

Section Properties.

Context {value : Type} `{!DefaultConstructible value}.

Local Abbreviation Pool := (@Pool value).
Local Abbreviation Registry := (@Registry value).
Local Abbreviation World := (@World value).
Local Abbreviation op := (@op value).

(** ** The monad *)

Lemma bind_Returns {St A B} (m : M St A) (k : A → M St B) s a s' :
  m s = Returns a s' → (m ≫= k) s = k a s'.
Proof. intros H. unfold mbind, M_bind. by rewrite H. Qed.

Lemma bind_inv_Returns {St A B} (m : M St A) (k : A → M St B) s b s'' :
  (m ≫= k) s = Returns b s'' →
  ∃ a s', m s = Returns a s' ∧ k a s' = Returns b s''.
Proof.
  unfold mbind, M_bind. destruct (m s) as [a s'| | |]; try discriminate.
  intros H. by exists a, s'.
Qed.

Lemma preserves_bind {St A B} (P : relation St) `{!Transitive P}
    (m : M St A) (k : A → M St B) :
  preserves P m → (∀ a, preserves P (k a)) → preserves P (m ≫= k).
Proof.
  intros Hm Hk s s'. unfold mbind, M_bind.
  specialize (Hm s). destruct (m s) as [a s1|s1| |]; simpl in *; try discriminate.
  - intros Hf. etrans; [by apply Hm|]. by eapply Hk.
  - intros [= <-]. by apply Hm.
Qed.

Lemma preserves_for_each {St A} (P : relation St) `{!PreOrder P}
    (body : A → M St unit) xs :
  (∀ x, preserves P (body x)) → preserves P (for_each body xs).
Proof.
  intros Hbody. induction xs as [|x xs IH]; simpl.
  - by intros s s' [= <-].
  - apply preserves_bind; [apply _|done|done].
Qed.

Lemma preserves_zoom {St Sub A} (P : relation St) (Q : relation Sub)
    (get : St → Sub) (set : Sub → St → St) (m : M Sub A) :
  (∀ s sub, Q (get s) sub → P s (set sub s)) →
  preserves Q m → preserves P (zoom get set m).
Proof.
  intros HQP Hm s s'. unfold zoom. specialize (Hm (get s)).
  destruct (m (get s)) as [a sub|sub| |]; simpl in *; try discriminate;
    intros [= <-]; by apply HQP, Hm.
Qed.

Lemma preserves_stateless {St A} (P : relation St) `{!Reflexive P} (m : M St A) :
  stateless m → preserves P m.
Proof. intros Hm s s' H. by rewrite (Hm s s' H). Qed.

Lemma preserves_modify {St} (P : relation St) (f : St → St) :
  (∀ s, P s (f s)) → preserves P (modify f).
Proof. intros Hf s s' [= <-]. apply Hf. Qed.

Lemma stateless_gets {St A} (f : St → A) : stateless (gets f).
Proof. by intros s s' [= <-]. Qed.
Lemma stateless_mret {St A} (a : A) : stateless (mret (M:=M St) a).
Proof. by intros s s' [= <-]. Qed.
Lemma stateless_throw {St A} : stateless (throw (St:=St) (A:=A)).
Proof. by intros s s' [= <-]. Qed.
Lemma stateless_undefined {St A} : stateless (undefined (St:=St) (A:=A)).
Proof. by intros s s' [=]. Qed.
Lemma stateless_vec_at {St A} (v : list A) i : stateless (vec_at (St:=St) v i).
Proof. unfold vec_at. destruct (v !! N.to_nat i); by intros s s' [= <-]. Qed.
Lemma stateless_bitset_set {St} sg pos val : stateless (bitset_set (St:=St) sg pos val).
Proof. unfold bitset_set. case_decide; by intros s s' [= <-]. Qed.
Lemma stateless_bitset_test {St} sg pos : stateless (bitset_test (St:=St) sg pos).
Proof. unfold bitset_test. case_decide; by intros s s' [= <-]. Qed.
Lemma stateless_deref {St} (p : option Pool) : stateless (deref (St:=St) p).
Proof. destruct p; by intros s s' [= <-]. Qed.
Lemma stateless_Pool_Set {St} index object (p : Pool) :
  stateless (Pool_Set (St:=St) index object p).
Proof. unfold Pool_Set. case_decide; by intros s s' [= <-]. Qed.

Create HintDb stateless.
#[local] Hint Resolve stateless_gets stateless_mret stateless_throw
  stateless_undefined stateless_vec_at stateless_bitset_set
  stateless_bitset_test stateless_deref stateless_Pool_Set : stateless.

(** Reduce a goal [preserves P m] to the state updates inside [m]. *)
Ltac pres_step :=
  lazymatch goal with
  | |- preserves _ (_ ≫= _) => apply preserves_bind; [apply _| |intros ?]
  | |- preserves _ (modify _) => apply preserves_modify; intros ?; simpl
  | |- preserves _ (for_each _ _) => apply preserves_for_each; [apply _|intros ?]
  | |- preserves _ (if decide _ then _ else _) => case_decide
  | |- preserves _ (match ?x with _ => _ end) => destruct x
  | |- preserves _ _ => apply preserves_stateless; [apply _|by auto with stateless]
  end.
Ltac pres := repeat pres_step.

(** ** Component identities *)

Lemma GetId_known T st i : ids st !! T = Some i → GetId T st = Returns i st.
Proof. intros H. unfold GetId. by rewrite H. Qed.

Lemma GetId_fresh T st :
  ids st !! T = None →
  GetId T st = Returns (nextId st)
                 (mkIdState (wrap32 (nextId st + 1)) (<[T := nextId st]> (ids st))).
Proof. intros H. unfold GetId. by rewrite H. Qed.

(** [GetId] always returns, and afterwards the kind owns the id returned. *)
Lemma GetId_returns T st :
  ∃ i st', GetId T st = Returns i st' ∧ ids st' !! T = Some i.
Proof.
  destruct (ids st !! T) as [i|] eqn:E.
  - exists i, st. by rewrite (GetId_known _ _ _ E).
  - eexists _, _. rewrite (GetId_fresh _ _ E). split; [done|].
    simpl. apply lookup_insert_eq.
Qed.

(** An id, once handed out, is never changed by later calls. *)
Lemma GetId_keeps T U st i j st' :
  GetId U st = Returns j st' → ids st !! T = Some i → ids st' !! T = Some i.
Proof.
  unfold GetId. destruct (ids st !! U) as [k|] eqn:E; intros Hrun HT;
    injection Hrun as <- <-; [done|].
  simpl. rewrite lookup_insert_ne; [done|]. intros ->. congruence.
Qed.

Lemma GetIds_returns Ts st : ∃ results st', GetIds Ts st = Returns results st'.
Proof.
  revert st. induction Ts as [|T Ts IH]; intros st; simpl.
  - by eexists _, _.
  - destruct (GetId_returns T st) as (i & st1 & Hi & _).
    destruct (IH st1) as (rest & st2 & Hrest).
    exists (i :: rest), st2.
    rewrite (bind_Returns _ _ _ _ _ Hi), (bind_Returns _ _ _ _ _ Hrest). done.
Qed.

Lemma GetIds_cons_inv T Ts st results st' :
  GetIds (T :: Ts) st = Returns results st' →
  ∃ i st1 rest, GetId T st = Returns i st1 ∧ GetIds Ts st1 = Returns rest st'
                ∧ results = i :: rest.
Proof.
  simpl. intros H.
  apply bind_inv_Returns in H as (i & st1 & Hi & H).
  apply bind_inv_Returns in H as (rest & st2 & Hrest & H).
  unfold mret, M_ret in H. injection H as <- <-. by exists i, st1, rest.
Qed.

(** A kind that already has its id gets it back at every later call. *)
Lemma GetIds_known Ts : ∀ st results st' T i k,
  GetIds Ts st = Returns results st' →
  ids st !! T = Some i → Ts !! k = Some T → results !! k = Some i.
Proof.
  induction Ts as [|T0 Ts IH]; intros st results st' T i k Hrun Hid Hk; [done|].
  apply GetIds_cons_inv in Hrun as (i0 & st1 & rest & H0 & Hrest & ->).
  destruct k as [|k]; simpl in *.
  - injection Hk as ->. rewrite (GetId_known _ _ _ Hid) in H0. congruence.
  - eapply IH; [done| |done]. by eapply GetId_keeps.
Qed.

Lemma GetIds_stable Ts : ∀ st results st' T k1 k2,
  GetIds Ts st = Returns results st' →
  Ts !! k1 = Some T → Ts !! k2 = Some T → results !! k1 = results !! k2.
Proof.
  induction Ts as [|T0 Ts IH]; intros st results st' T k1 k2 Hrun H1 H2; [done|].
  apply GetIds_cons_inv in Hrun as (i0 & st1 & rest & H0 & Hrest & ->).
  destruct (GetId_returns T0 st) as (i0' & st1' & H0' & Hown).
  rewrite H0 in H0'. injection H0' as <- <-.
  destruct k1 as [|k1], k2 as [|k2]; simpl in *; [done| | |by eapply IH].
  - injection H1 as ->. symmetry. by eapply GetIds_known.
  - injection H2 as ->. by eapply GetIds_known.
Qed.

Lemma wrap32_succ n : wrap32 (wrap32 n + 1) = wrap32 (n + 1).
Proof.
  unfold wrap32, UINT_MODULUS.
  rewrite <- (N.Div0.add_mod_idemp_l n 1). done.
Qed.

Lemma GetId_counts T st i st' :
  GetId T st = Returns i st' → counts_kinds st →
  counts_kinds st' ∧ dom (ids st') = {[T]} ∪ dom (ids st).
Proof.
  unfold counts_kinds. intros H Hc.
  destruct (ids st !! T) as [k|] eqn:E.
  - rewrite (GetId_known _ _ _ E) in H. simplify_eq.
    split; [done|]. apply elem_of_dom_2 in E.
    symmetry. apply subseteq_union_1_L. by apply singleton_subseteq_l.
  - rewrite (GetId_fresh _ _ E) in H. simplify_eq. simpl.
    rewrite dom_insert_L. split; [|done].
    rewrite size_union by (apply disjoint_singleton_l; by apply not_elem_of_dom).
    rewrite size_singleton, Hc, wrap32_succ. f_equal. lia.
Qed.

(** A kind never seen before gets the count of the kinds seen. *)
Lemma GetIds_fresh Ts : ∀ st results st' T k,
  GetIds Ts st = Returns results st' → counts_kinds st →
  ids st !! T = None → Ts !! k = Some T → T ∉ take k Ts →
  results !! k =
    Some (wrap32 (N.of_nat (size (list_to_set (take k Ts) ∪ dom (ids st))))).
Proof.
  induction Ts as [|T0 Ts IH]; intros st results st' T k Hrun Hc Hnew Hk Hnot; [done|].
  apply GetIds_cons_inv in Hrun as (i0 & st1 & rest & H0 & Hrest & ->).
  destruct k as [|k]; simpl in *.
  - injection Hk as ->. rewrite (GetId_fresh _ _ Hnew) in H0.
    injection H0 as <- <-. simpl. rewrite Hc.
    by rewrite (left_id_L ∅ (∪)).
  - apply not_elem_of_cons in Hnot as [Hne Hnot].
    destruct (GetId_counts _ _ _ _ H0 Hc) as [Hc1 Hdom].
    rewrite (IH st1 rest st' T k Hrest Hc1); [|  |done|done].
    + rewrite Hdom. simpl.
      by rewrite (assoc_L (∪)), (comm_L (∪) _ {[T0]}).
    + apply not_elem_of_dom. rewrite Hdom. apply not_elem_of_dom in Hnew.
      rewrite not_elem_of_union, not_elem_of_singleton. by split.
Qed.

Lemma counts_kinds_init : counts_kinds IdState_init.
Proof. unfold counts_kinds. done. Qed.

Lemma GetIds_length Ts : ∀ st results st',
  GetIds Ts st = Returns results st' → length results = length Ts.
Proof.
  induction Ts as [|T Ts IH]; intros st results st' Hrun.
  - by injection Hrun as <- <-.
  - apply GetIds_cons_inv in Hrun as (i & st1 & rest & _ & Hrest & ->).
    simpl. f_equal. by eapply IH.
Qed.

Lemma GetIds_counts Ts : ∀ st results st',
  GetIds Ts st = Returns results st' → counts_kinds st →
  counts_kinds st' ∧ dom (ids st') = list_to_set Ts ∪ dom (ids st).
Proof.
  induction Ts as [|T Ts IH]; intros st results st' Hrun Hc.
  - injection Hrun as <- <-. split; [done|]. simpl. by rewrite (left_id_L ∅ (∪)).
  - apply GetIds_cons_inv in Hrun as (i & st1 & rest & Hi & Hrest & ->).
    destruct (GetId_counts _ _ _ _ Hi Hc) as [Hc1 Hdom1].
    destruct (IH _ _ _ Hrest Hc1) as [Hc' Hdom']. split; [done|].
    rewrite Hdom', Hdom1. simpl.
    by rewrite (assoc_L (∪)), (comm_L (∪) _ {[T]}).
Qed.

Lemma wrap32_small n : n < UINT_MODULUS → wrap32 n = n.
Proof. intros H. unfold wrap32. by apply N.mod_small. Qed.

(** C5. Whatever calls of [GetId] a process run makes, every call returns;
    two calls for the same kind return the same (non-negative) integer; and
    the first call for a kind not seen before returns the number of kinds
    seen so far, 0 for the first one (the counter is an [unsigned int], so
    the count is taken modulo 2^32). *)
Theorem GetId_same_id_sequential_from_0 (calls : list string) :
  ∃ results st,
    GetIds calls IdState_init = Returns results st ∧
    length results = length calls ∧
    (∀ k1 k2 T, calls !! k1 = Some T → calls !! k2 = Some T →
                ∃ i, results !! k1 = Some i ∧ results !! k2 = Some i ∧ 0 ≤ i) ∧
    (∀ k T, calls !! k = Some T → T ∉ take k calls →
            let seen := N.of_nat (size (list_to_set (take k calls) : gset string)) in
            results !! k = Some (wrap32 seen) ∧
            (seen < UINT_MODULUS → results !! k = Some seen) ∧
            (k = 0%nat → results !! k = Some 0)).
Proof.
  destruct (GetIds_returns calls IdState_init) as (results & st & Hrun).
  exists results, st. split; [done|].
  pose proof (GetIds_length _ _ _ _ Hrun) as Hlen.
  split; [done|]. split.
  - intros k1 k2 T H1 H2.
    destruct (lookup_lt_is_Some_2 results k1) as [i Hi].
    { rewrite Hlen. by eapply lookup_lt_Some. }
    exists i. split; [done|]. split; [|lia].
    rewrite <- Hi. symmetry. by eapply GetIds_stable.
  - intros k T Hk Hnew seen.
    assert (results !! k = Some (wrap32 seen)) as Hres.
    { rewrite (GetIds_fresh _ _ _ _ T k Hrun counts_kinds_init); [|done|done|done].
      unfold seen. simpl. by rewrite dom_empty_L, (right_id_L ∅ (∪)). }
    split; [done|]. split.
    + intros Hsmall. by rewrite Hres, wrap32_small.
    + intros ->. rewrite Hres. unfold seen. done.
Qed.

Lemma bitset_set_out_of_range {St} (s : Signature) pos val (st : St) :
  MAX_COMPONENTS ≤ pos → bitset_set s pos val st = Throws st.
Proof. intros H. unfold bitset_set. rewrite decide_False by lia. done. Qed.

Lemma bitset_set_in_range {St} (s : Signature) pos val (st : St) :
  pos < MAX_COMPONENTS →
  bitset_set s pos val st =
    Returns (if val then N.setbit s pos else N.clearbit s pos) st.
Proof. intros H. unfold bitset_set. by rewrite decide_True. Qed.

(** C6, as the code has it.  [GetId] checks nothing: a kind not seen
    before gets the number of kinds seen so far as its id, also when that
    is 32 or more, and the call returns.  The width of the signature is
    enforced only where such an id is used as a bit position:
    [RequireComponent] then throws std::out_of_range from [bitset::set]. *)
Theorem GetId_unchecked_beyond_MAX_COMPONENTS (calls : list string) (T : string) :
  T ∉ calls →
  let seen := N.of_nat (size (list_to_set calls : gset string)) in
  ∃ results st st',
    GetIds calls IdState_init = Returns results st ∧
    GetId T st = Returns (wrap32 seen) st' ∧
    (MAX_COMPONENTS ≤ wrap32 seen →
     ∀ sys, RequireComponent T sys st = Throws st').
Proof.
  intros Hnew seen.
  destruct (GetIds_returns calls IdState_init) as (results & st & Hrun).
  destruct (GetIds_counts _ _ _ _ Hrun counts_kinds_init) as [Hc Hdom].
  assert (ids st !! T = None) as Hfresh.
  { apply not_elem_of_dom. rewrite Hdom. simpl.
    by rewrite dom_empty_L, (right_id_L ∅ (∪)), elem_of_list_to_set. }
  assert (nextId st = wrap32 seen) as Hnext.
  { rewrite Hc, Hdom. unfold seen. simpl.
    by rewrite dom_empty_L, (right_id_L ∅ (∪)). }
  eexists results, st, _. split; [done|].
  rewrite (GetId_fresh _ _ Hfresh), Hnext. split; [done|].
  intros Hbig sys. unfold RequireComponent.
  erewrite bind_Returns; [|by rewrite (GetId_fresh _ _ Hfresh), Hnext].
  unfold mbind, M_bind. by rewrite bitset_set_out_of_range.
Qed.

(** ** std::vector and std::bitset *)

Lemma vec_resize_length {A} (v : list A) n x :
  length (vec_resize v n x) = N.to_nat n.
Proof. unfold vec_resize. rewrite length_app, length_take, length_replicate. lia. Qed.

Lemma vec_resize_size {A} (v : list A) n x : vec_size (vec_resize v n x) = n.
Proof. unfold vec_size. rewrite vec_resize_length. lia. Qed.

Lemma vec_resize_lookup_old {A} (v : list A) n x (i : nat) :
  (i < N.to_nat n)%nat → (i < length v)%nat → vec_resize v n x !! i = v !! i.
Proof.
  intros Hn Hv. unfold vec_resize.
  rewrite lookup_app_l by (rewrite length_take; lia).
  by rewrite lookup_take_lt.
Qed.

Lemma vec_resize_lookup_new {A} (v : list A) n x (i : nat) :
  (i < N.to_nat n)%nat → (length v ≤ i)%nat → vec_resize v n x !! i = Some x.
Proof.
  intros Hn Hv. unfold vec_resize.
  rewrite lookup_app_r by (rewrite length_take; lia).
  rewrite length_take. apply lookup_replicate_2. lia.
Qed.

(** Growing keeps every slot there was. *)
Lemma vec_resize_grow {A} (v : list A) n x (i : nat) y :
  vec_size v ≤ n → v !! i = Some y → vec_resize v n x !! i = Some y.
Proof.
  unfold vec_size. intros Hn Hi. pose proof (lookup_lt_Some _ _ _ Hi).
  rewrite vec_resize_lookup_old; [done|lia|done].
Qed.

Lemma vec_at_Some {St A} (v : list A) i x (s : St) :
  v !! N.to_nat i = Some x → vec_at v i s = Returns x s.
Proof. intros H. unfold vec_at. by rewrite H. Qed.

Lemma vec_at_None {St A} (v : list A) i (s : St) :
  v !! N.to_nat i = None → vec_at (St:=St) v i s = Undefined.
Proof. intros H. unfold vec_at. by rewrite H. Qed.

Lemma bitset_test_in_range {St} (s : Signature) pos (st : St) :
  pos < MAX_COMPONENTS → bitset_test s pos st = Returns (N.testbit s pos) st.
Proof. intros H. unfold bitset_test. by rewrite decide_True. Qed.

(** The matching rule is the superset test on the bits. *)
Lemma interested_bits (entitySig systemSig : Signature) :
  interested entitySig systemSig = true ↔
  ∀ b, N.testbit systemSig b = true → N.testbit entitySig b = true.
Proof.
  unfold interested. rewrite bool_decide_eq_true. split.
  - intros H b Hb. rewrite <- H in Hb. rewrite N.land_spec in Hb.
    by apply andb_true_iff in Hb as [? _].
  - intros H. apply N.bits_inj. intros b. rewrite N.land_spec.
    destruct (N.testbit systemSig b) eqn:E; [|by rewrite andb_false_r].
    by rewrite (H b E).
Qed.

(** ** The systems map *)

(** C8, as the code has it.  [GetSystem<S>()] checks nothing: with no
    system of kind [S] registered it dereferences the end iterator of the
    map, which is undefined behaviour and no assertion failure; with one
    registered it returns that instance, the only one of its kind, and
    leaves the registry as it is.  The instance is the one [AddSystem<S>]
    constructed when the kind was not yet registered. *)
Theorem GetSystem_unchecked :
  (∀ (r : Registry) (S : string),
     match systems r !! S with
     | None =>
         GetSystem S r = Undefined ∧ ¬ fails_fast (GetSystem S r) ∧
         HasSystem S r = Returns false r
     | Some sys =>
         GetSystem S r = Returns sys r ∧ HasSystem S r = Returns true r ∧
         ∀ sys' r', GetSystem S r = Returns sys' r' → sys' = sys ∧ r' = r
     end) ∧
  (∀ (w : World) (S : string) (ctor : M IdState System) newSystem st',
     systems (registry w) !! S = None →
     ctor (cids w) = Returns newSystem st' →
     ∃ w', AddSystem S ctor w = Returns tt w' ∧
           GetSystem S (registry w') = Returns newSystem (registry w')).
Proof.
  split.
  - intros r S. unfold GetSystem, HasSystem, gets, mbind, M_bind.
    destruct (systems r !! S) as [sys|] eqn:E; simpl.
    + split; [done|]. split; [done|]. by intros sys' r' [= <- <-].
    + split; [done|]. split; [by intros []|done].
  - intros w S ctor newSystem st' Hnone Hctor. eexists.
    unfold AddSystem, in_ids, in_reg, zoom, modify, mbind, M_bind.
    rewrite Hctor. simpl. rewrite Hnone. split; [done|]. simpl.
    unfold GetSystem, gets, mbind, M_bind. simpl. by rewrite lookup_insert_eq.
Qed.

(** C9. [AddSystem<S>] for a kind that is already registered runs the
    constructor of the new instance and then drops it: whether the call
    returns or the constructor throws, the registry, its systems map
    included, is what it was, and [GetSystem<S>()] still returns the
    instance registered first.  The call returns when the constructor
    does. *)
Theorem AddSystem_keeps_registered (w : World) (S : string)
    (ctor : M IdState System) (sys0 : System) :
  systems (registry w) !! S = Some sys0 →
  (∀ w', final_state (AddSystem S ctor w) = Some w' →
         registry w' = registry w ∧
         systems (registry w') = systems (registry w) ∧
         GetSystem S (registry w') = Returns sys0 (registry w')) ∧
  (∀ newSystem st', ctor (cids w) = Returns newSystem st' →
                    AddSystem S ctor w = Returns tt (mkWorld st' (registry w))).
Proof.
  intros Hreg.
  assert (GetSystem S (registry w) = Returns sys0 (registry w)) as Hget.
  { unfold GetSystem, gets, mbind, M_bind. by rewrite Hreg. }
  unfold AddSystem, in_ids, in_reg, zoom, modify, mbind, M_bind. split.
  - intros w'. destruct (ctor (cids w)) as [newSystem st'|st'| |]; simpl;
      rewrite ?Hreg; intros [= <-]; by simpl.
  - intros newSystem st' ->. simpl. by rewrite Hreg.
Qed.

(** C10. [RemoveSystem<S>()] needs a system of kind [S] to be registered:
    without one it erases the end iterator, which is undefined behaviour;
    with one it removes exactly that entry, after which [HasSystem<S>()]
    is false and every other kind is registered as before. *)
Theorem RemoveSystem_needs_registered (r : Registry) (S : string) :
  match systems r !! S with
  | None => RemoveSystem S r = Undefined
  | Some _ =>
      ∃ r', RemoveSystem S r = Returns tt r' ∧
            systems r' = delete S (systems r) ∧
            HasSystem S r' = Returns false r' ∧
            (∀ S', S' ≠ S → systems r' !! S' = systems r !! S') ∧
            numEntities r' = numEntities r ∧
            entitiesToBeAdded r' = entitiesToBeAdded r ∧
            entitiesToBeKilled r' = entitiesToBeKilled r ∧
            componentPools r' = componentPools r ∧
            entityComponentSignatures r' = entityComponentSignatures r
  end.
Proof.
  unfold RemoveSystem, HasSystem, gets, modify, mbind, M_bind.
  destruct (systems r !! S) as [sys|] eqn:E; simpl; [|done].
  eexists. split; [done|]. simpl. split; [done|]. split.
  - f_equal. apply bool_decide_eq_false. rewrite lookup_delete_eq. by intros [? ?].
  - split; [|done]. intros S' Hne. by rewrite lookup_delete_ne.
Qed.

(** ** Stepping through a call that returned *)

Lemma gets_inv {St A} (f : St → A) s a s' :
  gets f s = Returns a s' → a = f s ∧ s' = s.
Proof. unfold gets. by intros [= <- <-]. Qed.

Lemma modify_inv {St} (f : St → St) s u s' :
  modify f s = Returns u s' → s' = f s.
Proof. unfold modify. by intros [= <-]. Qed.

Lemma mret_inv {St A} (a b : A) (s s' : St) :
  mret (M:=M St) a s = Returns b s' → b = a ∧ s' = s.
Proof. unfold mret, M_ret. by intros [= <- <-]. Qed.

Lemma vec_at_inv {St A} (v : list A) i (s : St) x s' :
  vec_at v i s = Returns x s' → v !! N.to_nat i = Some x ∧ s' = s.
Proof.
  unfold vec_at. destruct (v !! N.to_nat i); [|done].
  unfold mret, M_ret. by intros [= <- <-].
Qed.

Lemma deref_inv {St} (p : option Pool) (s : St) pool s' :
  deref p s = Returns pool s' → p = Some pool ∧ s' = s.
Proof. destruct p; [|done]. unfold deref, mret, M_ret. by intros [= <- <-]. Qed.

Lemma Pool_Set_inv {St} index object (p : Pool) (s : St) p' s' :
  Pool_Set index object p s = Returns p' s' →
  index < vec_size (data p) ∧
  p' = mkPool (<[N.to_nat index := object]> (data p)) ∧ s' = s.
Proof.
  unfold Pool_Set. case_decide; [|done].
  unfold mret, M_ret. by intros [= <- <-].
Qed.

Lemma bitset_set_inv {St} (sg : Signature) pos val (s : St) sg' s' :
  bitset_set sg pos val s = Returns sg' s' →
  pos < MAX_COMPONENTS ∧
  sg' = (if val then N.setbit sg pos else N.clearbit sg pos) ∧ s' = s.
Proof.
  unfold bitset_set. case_decide; [|done].
  unfold mret, M_ret. by intros [= <- <-].
Qed.

Lemma bitset_test_inv {St} (sg : Signature) pos (s : St) b s' :
  bitset_test sg pos s = Returns b s' →
  pos < MAX_COMPONENTS ∧ b = N.testbit sg pos ∧ s' = s.
Proof.
  unfold bitset_test. case_decide; [|done].
  unfold mret, M_ret. by intros [= <- <-].
Qed.

Lemma zoom_inv {St Sub A} (get : St → Sub) (set : Sub → St → St) (m : M Sub A)
    s a s' :
  zoom get set m s = Returns a s' →
  ∃ sub, m (get s) = Returns a sub ∧ s' = set sub s.
Proof.
  unfold zoom. destruct (m (get s)) as [a' sub| | |]; try done.
  intros [= <- <-]. by exists sub.
Qed.

Ltac minv_step :=
  match goal with
  | H : (_ ≫= _) _ = Returns _ _ |- _ =>
      apply bind_inv_Returns in H as (? & ? & ? & H)
  | H : zoom _ _ _ _ = Returns _ _ |- _ =>
      apply zoom_inv in H as (? & H & ?)
  | H : in_ids _ _ = Returns _ _ |- _ => unfold in_ids in H
  | H : in_reg _ _ = Returns _ _ |- _ => unfold in_reg in H
  | H : gets _ _ = Returns _ _ |- _ => apply gets_inv in H as [? ?]
  | H : modify _ _ = Returns _ _ |- _ => apply modify_inv in H
  | H : mret _ _ = Returns _ _ |- _ => apply mret_inv in H as [? ?]
  | H : vec_at _ _ _ = Returns _ _ |- _ => apply vec_at_inv in H as [? ?]
  | H : deref _ _ = Returns _ _ |- _ => apply deref_inv in H as [? ?]
  | H : Pool_Set _ _ _ _ = Returns _ _ |- _ =>
      apply Pool_Set_inv in H as (? & ? & ?)
  | H : bitset_set _ _ _ _ = Returns _ _ |- _ =>
      apply bitset_set_inv in H as (? & ? & ?)
  | H : bitset_test _ _ _ = Returns _ _ |- _ =>
      apply bitset_test_inv in H as (? & ? & ?)
  end.
Ltac minv := repeat (minv_step; simplify_eq/=).

(** ** Components *)

Lemma wrap32_lt_MAX cid : cid < MAX_COMPONENTS → wrap32 (cid + 1) = cid + 1.
Proof.
  intros H. apply wrap32_small. unfold MAX_COMPONENTS, UINT_MODULUS in *.
  change (2 ^ 32) with 4294967296. lia.
Qed.

Lemma Pool_new_size T : vec_size (data (Pool_new T)) = 100.
Proof. unfold Pool_new. simpl. by rewrite vec_resize_size. Qed.

(** What a call of [AddComponent] that returned has done. *)
Lemma AddComponent_inv (w w' : World) T e v :
  AddComponent T e v w = Returns tt w' →
  let r := registry w in
  let r' := registry w' in
  ∃ cid sig p',
    GetId T (cids w) = Returns cid (cids w') ∧
    cid < MAX_COMPONENTS ∧
    entityComponentSignatures r !! N.to_nat (id e) = Some sig ∧
    entityComponentSignatures r' =
      <[N.to_nat (id e) := N.setbit sig cid]> (entityComponentSignatures r) ∧
    numEntities r' = numEntities r ∧
    entitiesToBeAdded r' = entitiesToBeAdded r ∧
    entitiesToBeKilled r' = entitiesToBeKilled r ∧
    systems r' = systems r ∧
    componentPools r' !! N.to_nat cid = Some (Some p') ∧
    data p' !! N.to_nat (id e) = Some v ∧
    (∀ j q, j ≠ N.to_nat cid →
       componentPools r !! j = Some q → componentPools r' !! j = Some q) ∧
    (∀ j q, j ≠ N.to_nat cid →
       componentPools r' !! j = Some (Some q) →
       componentPools r !! j = Some (Some q)) ∧
    (∀ p, componentPools r !! N.to_nat cid = Some (Some p) →
       vec_size (data p) < UINT_MODULUS →
       (length (data p) ≤ length (data p'))%nat ∧
       ∀ i x, i ≠ N.to_nat (id e) →
              data p !! i = Some x → data p' !! i = Some x) ∧
    (numEntities r < UINT_MODULUS →
     (∀ p, componentPools r !! N.to_nat cid = Some (Some p) →
           vec_size (data p) < UINT_MODULUS) →
     vec_size (data p') < UINT_MODULUS).
Proof.
  intros H r0 r'. subst r0 r'. destruct w as [st r]. unfold AddComponent in H.
  minv. unfold Entity_GetId in *.
  rename x into cid, x16 into p0, x11 into r1, x26 into sig.
  set (p1 := if decide (Pool_GetSize p0 ≤ id e)
             then Pool_Resize T (numEntities r1) p0 else p0) in *.
  assert (numEntities r1 = numEntities r ∧
          entitiesToBeAdded r1 = entitiesToBeAdded r ∧
          entitiesToBeKilled r1 = entitiesToBeKilled r ∧
          systems r1 = systems r ∧
          entityComponentSignatures r1 = entityComponentSignatures r ∧
          (∀ j q, j ≠ N.to_nat cid →
             componentPools r !! j = Some q → componentPools r1 !! j = Some q) ∧
          (∀ j q, j ≠ N.to_nat cid →
             componentPools r1 !! j = Some (Some q) →
             componentPools r !! j = Some (Some q)) ∧
          p0 = match componentPools r !! N.to_nat cid with
               | Some (Some p) => p
               | _ => Pool_new T
               end) as (Hn & Ha & Hk & Hs & Hsig & Hother & Hnone & Hp0).
  { case_decide as Hsz; minv.
    - (* the vector of pools is grown first *)
      rewrite wrap32_lt_MAX in * by done.
      assert (componentPools r !! N.to_nat cid = None) as Hno.
      { apply lookup_ge_None. unfold vec_size in Hsz. lia. }
      rewrite vec_resize_lookup_new in H3 by (unfold vec_size in Hsz; lia).
      simplify_eq. minv. rewrite Hno.
      rewrite list_lookup_insert_eq in H1 by (rewrite vec_resize_length; lia).
      simplify_eq. repeat split; try done.
      + intros j q Hj Hq. rewrite list_lookup_insert_ne by done.
        by apply vec_resize_grow; [lia|].
      + intros j q Hj. rewrite list_lookup_insert_ne by done.
        intros Hq. pose proof (lookup_lt_Some _ _ _ Hq) as Hlt.
        rewrite vec_resize_length in Hlt.
        destruct (decide (j < length (componentPools r))%nat).
        * by rewrite vec_resize_lookup_old in Hq by lia.
        * rewrite vec_resize_lookup_new in Hq by lia. done.
    - (* the slot is there; it may still be null *)
      rewrite H3. destruct x8 as [p|]; minv.
      + by repeat split.
      + rewrite list_lookup_insert_eq in H1 by (by eapply lookup_lt_Some).
        simplify_eq. repeat split; try done.
        * intros j q Hj Hq. by rewrite list_lookup_insert_ne.
        * intros j q Hj. by rewrite list_lookup_insert_ne. }
  exists cid, sig, (mkPool (<[N.to_nat (id e) := v]> (data p1))).
  rewrite Hsig in *.
  assert (N.to_nat cid < length (componentPools r1))%nat by (by eapply lookup_lt_Some).
  assert (N.to_nat (id e) < length (data p1))%nat as Hin
    by (unfold vec_size in *; lia).
  assert (∀ p, componentPools r !! N.to_nat cid = Some (Some p) →
               vec_size (data p) < UINT_MODULUS →
               (length (data p) ≤ length (data p1))%nat ∧
               ∀ i x, data p !! i = Some x → data p1 !! i = Some x) as Hgrow.
  { intros p Hp Hbound. rewrite Hp in Hp0. subst p0.
    unfold p1 in *. case_decide as Hsz; [|done].
    unfold Pool_GetSize in Hsz. rewrite wrap32_small in Hsz by done.
    simpl in *. rewrite vec_resize_length in *. unfold vec_size in Hsz.
    split; [lia|]. intros i x Hx. apply vec_resize_grow; [|done].
    unfold vec_size. lia. }
  split_and!; try done.
  - by rewrite list_lookup_insert_eq.
  - simpl. by rewrite list_lookup_insert_eq.
  - intros j q Hj Hq. rewrite list_lookup_insert_ne by done. by apply Hother.
  - intros j q Hj. rewrite list_lookup_insert_ne by done. by apply Hnone.
  - intros p Hp Hbound. destruct (Hgrow p Hp Hbound) as [Hlen Hkeep].
    simpl. rewrite length_insert. split; [done|].
    intros i x Hi Hx. rewrite list_lookup_insert_ne by done. by apply Hkeep.
  - intros Hnum Hbound. simpl. unfold vec_size. rewrite length_insert.
    fold (vec_size (data p1)). clear Hin Hgrow. subst p1.
    destruct (decide (Pool_GetSize p0 ≤ id e)).
    + simpl. rewrite vec_resize_size. by rewrite Hn.
    + rewrite Hp0. destruct (componentPools r !! N.to_nat cid) as [[p|]|] eqn:E.
      * by apply Hbound.
      * by rewrite Pool_new_size.
      * by rewrite Pool_new_size.
Qed.

(** ** Stepping through a call from its start *)

Lemma bind_gets {St A B} (f : St → A) (k : A → M St B) s :
  (gets f ≫= k) s = k (f s) s.
Proof. done. Qed.

Lemma bind_modify {St B} (f : St → St) (k : unit → M St B) s :
  (modify f ≫= k) s = k tt (f s).
Proof. done. Qed.

Lemma bind_mret {St A B} (a : A) (k : A → M St B) s :
  (mret a ≫= k) s = k a s.
Proof. done. Qed.

Lemma zoom_Returns {St Sub A} (get : St → Sub) (set : Sub → St → St)
    (m : M Sub A) s a sub :
  m (get s) = Returns a sub → zoom get set m s = Returns a (set sub s).
Proof. intros H. unfold zoom. by rewrite H. Qed.

Ltac mstep :=
  first [ rewrite bind_gets | rewrite bind_modify | rewrite bind_mret
        | erewrite bind_Returns by (by apply vec_at_Some) ]; simpl.

(** [AddComponent] returns for an entity of the registry and a kind whose
    id fits the signature. *)
Lemma AddComponent_returns (w : World) T e v cid st1 sig :
  GetId T (cids w) = Returns cid st1 →
  cid < MAX_COMPONENTS →
  id e < numEntities (registry w) →
  entityComponentSignatures (registry w) !! N.to_nat (id e) = Some sig →
  ∃ w', AddComponent T e v w = Returns tt w'.
Proof.
  intros Hid Hcid He Hsig. destruct w as [st r]. simpl in *.
  unfold AddComponent.
  erewrite bind_Returns by (by apply zoom_Returns). simpl.
  unfold in_reg.
  match goal with |- ∃ w', zoom _ _ ?m _ = _ =>
    assert (∃ r', m r = Returns tt r') as [r' Hr'];
      [|eexists; by apply zoom_Returns] end.
  unfold Entity_GetId.
  mstep.
  (* the vector of pools reaches the slot of the kind *)
  set (r1 := if decide (vec_size (componentPools r) ≤ cid)
             then with_componentPools
                    (vec_resize (componentPools r) (wrap32 (cid + 1)) None) r
             else r).
  assert (numEntities r1 = numEntities r ∧
          entityComponentSignatures r1 = entityComponentSignatures r ∧
          (N.to_nat cid < length (componentPools r1))%nat) as (Hn1 & Hs1 & Hlt1).
  { unfold r1. case_decide as Hsz; simpl.
    - rewrite vec_resize_length, wrap32_lt_MAX by done. repeat split; lia.
    - unfold vec_size in Hsz. repeat split; lia. }
  erewrite (bind_Returns _ _ r tt r1) by (unfold r1; by case_decide).
  mstep.
  destruct (lookup_lt_is_Some_2 _ _ Hlt1) as [slot Hslot].
  mstep.
  (* the slot holds a pool *)
  set (r2 := match slot with
             | Some _ => r1
             | None => with_componentPools
                         (<[N.to_nat cid := Some (Pool_new T)]> (componentPools r1)) r1
             end).
  assert (numEntities r2 = numEntities r ∧
          entityComponentSignatures r2 = entityComponentSignatures r ∧
          ∃ p0, componentPools r2 !! N.to_nat cid = Some (Some p0))
    as (Hn2 & Hs2 & p0 & Hp0).
  { unfold r2. destruct slot as [p|]; simpl.
    - by eauto.
    - rewrite list_lookup_insert_eq by done. by eauto. }
  erewrite (bind_Returns _ _ r1 tt r2) by (unfold r2; by destruct slot).
  do 2 mstep. rewrite bind_mret. mstep.
  (* the pool reaches the slot of the entity *)
  set (p1 := if decide (Pool_GetSize p0 ≤ id e)
             then Pool_Resize T (numEntities r2) p0 else p0).
  assert (id e < vec_size (data p1)) as Hin.
  { unfold p1. case_decide as Hsz; simpl.
    - rewrite vec_resize_size. lia.
    - unfold Pool_GetSize, wrap32 in Hsz.
      pose proof (N.Div0.mod_le (vec_size (data p0)) UINT_MODULUS). lia. }
  erewrite bind_Returns by (unfold Pool_Set; by rewrite decide_True).
  do 2 mstep. rewrite Hs2.
  mstep.
  erewrite bind_Returns by (by apply bitset_set_in_range).
  by eexists.
Qed.

Lemma GetId_owns T st i st' : GetId T st = Returns i st' → ids st' !! T = Some i.
Proof.
  intros H. destruct (GetId_returns T st) as (i' & st'' & H' & Hown). congruence.
Qed.

Lemma HasComponent_eval (w : World) T e cid st1 sig :
  GetId T (cids w) = Returns cid st1 →
  entityComponentSignatures (registry w) !! N.to_nat (id e) = Some sig →
  HasComponent T e w =
    if decide (cid < MAX_COMPONENTS)
    then Returns (N.testbit sig cid) (mkWorld st1 (registry w))
    else Throws (mkWorld st1 (registry w)).
Proof.
  intros Hid Hsig. unfold HasComponent.
  erewrite bind_Returns by (by apply zoom_Returns). simpl.
  unfold in_reg, zoom, Entity_GetId. simpl. mstep. mstep.
  unfold bitset_test. by case_decide.
Qed.

Lemma GetComponent_eval (w : World) T e cid st1 p v :
  GetId T (cids w) = Returns cid st1 →
  componentPools (registry w) !! N.to_nat cid = Some (Some p) →
  data p !! N.to_nat (id e) = Some v →
  GetComponent T e w = Returns v (mkWorld st1 (registry w)).
Proof.
  intros Hid Hp Hv. unfold GetComponent.
  erewrite bind_Returns by (by apply zoom_Returns). simpl.
  unfold in_reg, zoom, Entity_GetId. simpl. mstep. mstep. rewrite bind_mret.
  unfold Pool_Get. by rewrite (vec_at_Some _ _ _ _ Hv).
Qed.

Lemma RemoveComponent_eval (w : World) T e cid st1 sig :
  GetId T (cids w) = Returns cid st1 →
  entityComponentSignatures (registry w) !! N.to_nat (id e) = Some sig →
  RemoveComponent T e w =
    if decide (cid < MAX_COMPONENTS)
    then Returns tt
           (mkWorld st1
              (with_entityComponentSignatures
                 (<[N.to_nat (id e) := N.clearbit sig cid]>
                    (entityComponentSignatures (registry w)))
                 (registry w)))
    else Throws (mkWorld st1 (registry w)).
Proof.
  intros Hid Hsig. unfold RemoveComponent.
  erewrite bind_Returns by (by apply zoom_Returns). simpl.
  unfold in_reg, zoom, Entity_GetId. simpl. mstep. mstep.
  unfold bitset_set. by case_decide.
Qed.

Lemma valid_entity_sig (r : Registry) e :
  valid_entity r e →
  ∃ sig, entityComponentSignatures r !! N.to_nat (id e) = Some sig.
Proof.
  intros [_ H]. apply lookup_lt_is_Some_2. unfold vec_size in H. lia.
Qed.

(** C3. Whenever [AddComponent<T>(e, args)] completes, bit [IdOf(T)] of
    the signature of [e] is set, so [HasComponent<T>(e)] is true right
    after it, and [GetComponent<T>(e)] is the value constructed from
    [args]; and the call does complete for an entity with a valid id and a
    kind [T] whose id fits the signature. *)
Theorem AddComponent_then_Has_and_Get (w : World) T e v :
  (∀ w', AddComponent T e v w = Returns tt w' →
         (∃ cid sig,
            ids (cids w') !! T = Some cid ∧
            entityComponentSignatures (registry w') !! N.to_nat (id e)
              = Some sig ∧
            N.testbit sig cid = true) ∧
         HasComponent T e w' = Returns true w' ∧
         GetComponent T e w' = Returns v w') ∧
  (∀ cid st1,
     valid_entity (registry w) e →
     GetId T (cids w) = Returns cid st1 →
     cid < MAX_COMPONENTS →
     ∃ w', AddComponent T e v w = Returns tt w').
Proof.
  split.
  - intros w' Hadd.
    pose proof (AddComponent_inv _ _ _ _ _ Hadd) as Hinv. cbv zeta in Hinv.
    destruct Hinv
      as (cid & sig & p' & Hid & Hcid & Hsig & Hsigs & _ & _ & _ & _ & Hp' & Hv & _).
    pose proof (GetId_owns _ _ _ _ Hid) as Hown.
    pose proof (GetId_known _ _ _ Hown) as Hagain.
    assert (entityComponentSignatures (registry w') !! N.to_nat (id e)
            = Some (N.setbit sig cid)) as Hsig'.
    { rewrite Hsigs. apply list_lookup_insert_eq. by eapply lookup_lt_Some. }
    split; [|split].
    + exists cid, (N.setbit sig cid). split_and!; [done|done|].
      apply N.setbit_eq.
    + destruct w' as [st' r']. simpl in *.
      erewrite HasComponent_eval; [|done|done].
      rewrite decide_True by done. by rewrite N.setbit_eq.
    + destruct w' as [st' r']. simpl in *. by erewrite GetComponent_eval.
  - intros cid st1 Hvalid Hid Hcid.
    destruct (valid_entity_sig _ _ Hvalid) as [sig Hsig].
    apply (AddComponent_returns w T e v cid st1 sig); [done|done| |done].
    apply Hvalid.
Qed.

Lemma ids_wf_init : ids_wf IdState_init.
Proof. split; intros *; simpl; by rewrite lookup_empty. Qed.

Lemma MAX_COMPONENTS_small i : i < MAX_COMPONENTS → i + 1 < UINT_MODULUS.
Proof.
  unfold MAX_COMPONENTS, UINT_MODULUS. change (2 ^ 32) with 4294967296. lia.
Qed.

Lemma GetId_wf T st i st' :
  GetId T st = Returns i st' → i < MAX_COMPONENTS → ids_wf st → ids_wf st'.
Proof.
  intros H Hi [Hlt Hinj].
  destruct (ids st !! T) as [k|] eqn:E.
  - rewrite (GetId_known _ _ _ E) in H. by simplify_eq.
  - rewrite (GetId_fresh _ _ E) in H. simplify_eq.
    pose proof (MAX_COMPONENTS_small _ Hi) as Hsmall.
    split; simpl; rewrite ?wrap32_small by done.
    + intros U i. destruct (decide (U = T)) as [->|Hne].
      * rewrite lookup_insert_eq. intros [= <-]. lia.
      * rewrite lookup_insert_ne by done. intros HU. apply Hlt in HU. lia.
    + intros U V i.
      destruct (decide (U = T)) as [->|HU], (decide (V = T)) as [->|HV];
        rewrite ?lookup_insert_eq, ?lookup_insert_ne by done; try done.
      * intros [= <-] H2. apply Hlt in H2. lia.
      * intros H1 [= <-]. apply Hlt in H1. lia.
      * apply Hinj.
Qed.

(** Two kinds never share an id. *)
Lemma GetId_distinct T U st cid st1 cu :
  ids_wf st → U ≠ T → GetId T st = Returns cid st1 →
  ids st !! U = Some cu → cu ≠ cid.
Proof.
  intros [Hlt Hinj] Hne HT HU.
  destruct (ids st !! T) as [k|] eqn:E.
  - rewrite (GetId_known _ _ _ E) in HT. simplify_eq.
    intros ->. apply Hne. by eapply Hinj.
  - rewrite (GetId_fresh _ _ E) in HT. simplify_eq. apply Hlt in HU. lia.
Qed.


(** ** What a call leaves untouched *)

#[local] Instance on_reg_preorder (Q : relation Registry) :
  PreOrder Q → PreOrder (on_reg Q).
Proof.
  intros [Hr Ht]. split.
  - intros w. apply Hr.
  - intros w1 w2 w3. apply Ht.
Qed.
#[local] Instance on_ids_preorder (Q : relation IdState) :
  PreOrder Q → PreOrder (on_ids (value:=value) Q).
Proof.
  intros [Hr Ht]. split.
  - intros w. apply Hr.
  - intros w1 w2 w3. apply Ht.
Qed.

Lemma preserves_in_reg {A} (Q : relation Registry) (m : M Registry A) :
  preserves Q m → preserves (on_reg Q) (in_reg m).
Proof. intros H. by apply (preserves_zoom _ Q). Qed.

Lemma preserves_in_ids_reg {A} (Q : relation Registry) `{!Reflexive Q}
    (m : M IdState A) :
  preserves (on_reg Q) (in_ids m).
Proof.
  intros w w'. unfold in_ids, zoom.
  destruct (m (cids w)); simpl; try discriminate;
    intros [= <-]; unfold on_reg; simpl; reflexivity.
Qed.

Lemma preserves_in_ids {A} (Q : relation IdState) (m : M IdState A) :
  preserves Q m → preserves (on_ids (value:=value) Q) (in_ids m).
Proof. intros H. by apply (preserves_zoom _ Q). Qed.

Lemma preserves_in_reg_ids {A} (Q : relation IdState) `{!Reflexive Q}
    (m : M Registry A) :
  preserves (on_ids (value:=value) Q) (in_reg m).
Proof.
  intros w w'. unfold in_reg, zoom.
  destruct (m (registry w)); simpl; try discriminate;
    intros [= <-]; unfold on_ids; simpl; reflexivity.
Qed.

#[local] Instance same_systems_preorder : PreOrder (same_systems (value:=value)).
Proof.
  split; [by intros r|]. intros r1 r2 r3. unfold same_systems. congruence.
Qed.

Lemma AddComponent_same_systems T e v :
  preserves (on_reg same_systems) (AddComponent T e v).
Proof.
  unfold AddComponent. apply preserves_bind; [apply _| |intros cid].
  - apply preserves_in_ids_reg, _.
  - apply preserves_in_reg. pres; done.
Qed.

Lemma RemoveComponent_same_systems T e :
  preserves (on_reg (value:=value) same_systems) (RemoveComponent T e).
Proof.
  unfold RemoveComponent. apply preserves_bind; [apply _| |intros cid].
  - apply preserves_in_ids_reg, _.
  - apply preserves_in_reg. pres; done.
Qed.

Lemma CreateEntity_eval (r : Registry) :
  ∃ r', CreateEntity r = Returns (mkEntity (numEntities r)) r' ∧
        systems r' = systems r ∧
        componentPools r' = componentPools r ∧
        entitiesToBeKilled r' = entitiesToBeKilled r ∧
        entitiesToBeAdded r' = {[mkEntity (numEntities r)]} ∪ entitiesToBeAdded r ∧
        numEntities r' = wrap32 (numEntities r + 1) ∧
        numEntities r < vec_size (entityComponentSignatures r') ∧
        (∀ i sig, entityComponentSignatures r !! i = Some sig →
                  entityComponentSignatures r' !! i = Some sig) ∧
        (vec_size (entityComponentSignatures r) ≤ numEntities r →
         entityComponentSignatures r' !! N.to_nat (numEntities r) = Some 0).
Proof.
  unfold CreateEntity. do 3 mstep.
  case_decide as Hsz; mstep; mstep; eexists; (split; [done|]); simpl;
    split_and!; try done.
  - rewrite vec_resize_size. lia.
  - intros i sig Hi. apply vec_resize_grow; [lia|done].
  - intros _. unfold vec_size in Hsz. apply vec_resize_lookup_new; lia.
  - lia.
Qed.

Lemma EnqueueKill_eval (e : Entity) (r : Registry) :
  EnqueueKill e r =
    Returns tt (with_entitiesToBeKilled ({[e]} ∪ entitiesToBeKilled r) r).
Proof. done. Qed.

(** ** Matching entities into systems *)

Lemma AddEntityToSystem_spec (e x : Entity) (sys : System) :
  componentSignature (AddEntityToSystem e sys) = componentSignature sys ∧
  (x ∈ entities (AddEntityToSystem e sys) ↔ x = e ∨ x ∈ entities sys).
Proof.
  unfold AddEntityToSystem. case_decide as Hin; simpl.
  - split; [done|]. split; [by right|]. by intros [->|?].
  - split; [done|]. rewrite elem_of_app, list_elem_of_singleton. tauto.
Qed.

Lemma RemoveEntityFromSystem_spec (e x : Entity) (sys : System) :
  componentSignature (RemoveEntityFromSystem e sys) = componentSignature sys ∧
  (x ∈ entities (RemoveEntityFromSystem e sys) ↔ x ∈ entities sys ∧ x ≠ e).
Proof.
  unfold RemoveEntityFromSystem. simpl. split; [done|].
  rewrite list_elem_of_filter. tauto.
Qed.

(** Both are idempotent, as the spec asks. *)
Lemma AddEntityToSystem_idem (e : Entity) (sys : System) :
  AddEntityToSystem e (AddEntityToSystem e sys) = AddEntityToSystem e sys.
Proof.
  unfold AddEntityToSystem at 2. case_decide as Hin; [done|].
  unfold AddEntityToSystem. simpl. rewrite (decide_False _ _ Hin).
  rewrite decide_True; [done|].
  rewrite elem_of_app, list_elem_of_singleton. by right.
Qed.

Lemma systems_related_fmap (R : System → System → Prop) (f : System → System) m :
  (∀ sys, R sys (f sys)) → systems_related R m (f <$> m).
Proof.
  intros Hf K. rewrite lookup_fmap.
  destruct (m !! K); simpl; constructor. apply Hf.
Qed.

Lemma systems_related_refl (R : System → System → Prop) m :
  (∀ sys, R sys sys) → systems_related R m m.
Proof. intros HR K. destruct (m !! K); constructor. apply HR. Qed.

Lemma systems_related_trans (R1 R2 R3 : System → System → Prop) m1 m2 m3 :
  (∀ a b c, R1 a b → R2 b c → R3 a c) →
  systems_related R1 m1 m2 → systems_related R2 m2 m3 →
  systems_related R3 m1 m3.
Proof.
  intros HR H12 H23 K. specialize (H12 K). specialize (H23 K).
  destruct H12 as [a b Hab|]; inversion H23; subst; constructor. by eapply HR.
Qed.

Lemma systems_related_lookup (R : System → System → Prop) m m' K sys :
  systems_related R m m' → m !! K = Some sys →
  ∃ sys', m' !! K = Some sys' ∧ R sys sys'.
Proof.
  intros H Hm. specialize (H K). rewrite Hm in H. inversion H; subst. eauto.
Qed.

#[local] Instance same_but_systems_preorder :
  PreOrder (same_but_systems (value:=value)).
Proof.
  split; [by intros r|].
  intros r1 r2 r3 (?&?&?&?&?) (?&?&?&?&?). unfold same_but_systems.
  split_and!; congruence.
Qed.

Lemma AddEntityToSystems_eval (r : Registry) (e : Entity) sig :
  entityComponentSignatures r !! N.to_nat (id e) = Some sig →
  AddEntityToSystems e r =
    Returns tt (with_systems
      ((λ sys, if interested sig (GetComponentSignature sys)
               then AddEntityToSystem e sys else sys) <$> systems r) r).
Proof. intros Hsig. unfold AddEntityToSystems, Entity_GetId. mstep. by mstep. Qed.

Lemma AddEntityToSystems_same_but_systems e :
  preserves (same_but_systems (value:=value)) (AddEntityToSystems e).
Proof. unfold AddEntityToSystems. pres. done. Qed.

Lemma RemoveEntityFromSystems_same_but_systems e :
  preserves (same_but_systems (value:=value)) (RemoveEntityFromSystems e).
Proof. unfold RemoveEntityFromSystems. pres. done. Qed.

Lemma for_each_AddEntityToSystems (l : list Entity) : ∀ r : Registry,
  (∀ x, x ∈ l → is_Some (entityComponentSignatures r !! N.to_nat (id x))) →
  ∃ r', for_each AddEntityToSystems l r = Returns tt r' ∧
        same_but_systems r r' ∧
        systems_related
          (λ sys sys',
             componentSignature sys' = componentSignature sys ∧
             ∀ x, x ∈ entities sys' ↔
                  x ∈ entities sys ∨ (x ∈ l ∧ matches r x sys))
          (systems r) (systems r').
Proof.
  induction l as [|e l IH]; intros r Hvalid; simpl.
  - exists r. split; [done|]. split; [done|].
    apply systems_related_refl. intros sys. split; [done|].
    intros x. rewrite elem_of_nil. tauto.
  - destruct (Hvalid e) as [sig Hsig]; [by left|].
    pose proof (AddEntityToSystems_eval r e sig Hsig) as He.
    rewrite (bind_Returns _ _ _ _ _ He).
    set (f := λ sys : System,
                if interested sig (GetComponentSignature sys)
                then AddEntityToSystem e sys else sys) in *.
    set (r1 := with_systems (f <$> systems r) r) in *.
    destruct (IH r1) as (r' & Hrun & Hsame & Hrel).
    { intros x Hx. simpl. apply Hvalid. by right. }
    exists r'. split; [done|]. split; [by destruct Hsame as (?&?&?&?&?)|].
    eapply (systems_related_trans (λ a b, b = f a));
      [|apply systems_related_fmap; by intros|exact Hrel].
    intros a b c -> [Hc Hin]. simpl in *.
    assert (componentSignature (f a) = componentSignature a) as Hsg.
    { unfold f. destruct (interested _ _); [|done].
      apply (AddEntityToSystem_spec e e). }
    split; [congruence|]. intros x. rewrite Hin.
    unfold matches, GetComponentSignature in *. simpl. rewrite Hsg.
    unfold f, GetComponentSignature.
    rewrite elem_of_cons.
    destruct (interested sig (componentSignature a)) eqn:Hint.
    + rewrite (proj2 (AddEntityToSystem_spec e x a)). split; [|tauto].
      intros [[->|?]|?]; [|tauto..]. right. split; [by left|]. by exists sig.
    + split; [tauto|]. intros [?|[[->|?] Hm]]; [tauto| |tauto].
      destruct Hm as (sig' & Hsig' & Hm). congruence.
Qed.

Lemma for_each_RemoveEntityFromSystems (l : list Entity) : ∀ r : Registry,
  ∃ r', for_each RemoveEntityFromSystems l r = Returns tt r' ∧
        same_but_systems r r' ∧
        systems_related
          (λ sys sys',
             componentSignature sys' = componentSignature sys ∧
             ∀ x, x ∈ entities sys' ↔ x ∈ entities sys ∧ x ∉ l)
          (systems r) (systems r').
Proof.
  induction l as [|e l IH]; intros r; simpl.
  - exists r. split; [done|]. split; [done|].
    apply systems_related_refl. intros sys. split; [done|].
    intros x. rewrite elem_of_nil. tauto.
  - set (r1 := with_systems (RemoveEntityFromSystem e <$> systems r) r).
    rewrite (bind_Returns _ _ r tt r1) by done.
    destruct (IH r1) as (r' & Hrun & Hsame & Hrel).
    exists r'. split; [done|]. split; [by destruct Hsame as (?&?&?&?&?)|].
    eapply (systems_related_trans (λ a b, b = RemoveEntityFromSystem e a));
      [|apply systems_related_fmap; by intros|exact Hrel].
    intros a b c -> [Hc Hin]. simpl in *. split; [done|].
    intros x. rewrite Hin, list_elem_of_filter, not_elem_of_cons. tauto.
Qed.

Lemma elem_of_set_iter (s : gset Entity) (x : Entity) : x ∈ set_iter s ↔ x ∈ s.
Proof. unfold set_iter. by rewrite merge_sort_Permutation, elem_of_elements. Qed.

Lemma set_iter_empty : set_iter ∅ = [].
Proof. unfold set_iter. by rewrite elements_empty. Qed.

Lemma Update_eval (r : Registry) :
  (∀ e, e ∈ entitiesToBeAdded r →
        is_Some (entityComponentSignatures r !! N.to_nat (id e))) →
  ∃ r', Update r = Returns tt r' ∧
        entitiesToBeAdded r' = ∅ ∧ entitiesToBeKilled r' = ∅ ∧
        numEntities r' = numEntities r ∧
        componentPools r' = componentPools r ∧
        entityComponentSignatures r' = entityComponentSignatures r ∧
        systems_related
          (λ sys sys',
             componentSignature sys' = componentSignature sys ∧
             ∀ x, x ∈ GetSystemEntities sys' ↔
                  (x ∈ GetSystemEntities sys ∨
                   (x ∈ entitiesToBeAdded r ∧ matches r x sys)) ∧
                  x ∉ entitiesToBeKilled r)
          (systems r) (systems r').
Proof.
  intros Hvalid. unfold Update. mstep.
  destruct (for_each_AddEntityToSystems (set_iter (entitiesToBeAdded r)) r)
    as (r1 & Hrun1 & (Hn1 & Ha1 & Hk1 & Hp1 & Hs1) & Hrel1).
  { intros x Hx. apply Hvalid. by apply elem_of_set_iter. }
  rewrite (bind_Returns _ _ _ _ _ Hrun1). mstep. mstep. rewrite Hk1.
  set (r2 := with_entitiesToBeAdded ∅ r1).
  destruct (for_each_RemoveEntityFromSystems (set_iter (entitiesToBeKilled r)) r2)
    as (r3 & Hrun3 & (Hn3 & Ha3 & Hk3 & Hp3 & Hs3) & Hrel3).
  rewrite (bind_Returns _ _ _ _ _ Hrun3).
  eexists. split; [done|]. simpl. split; [done|]. split; [done|].
  split; [by rewrite Hn3|]. split; [by rewrite Hp3|]. split; [by rewrite Hs3|].
  eapply systems_related_trans; [|exact Hrel1|exact Hrel3].
  intros a b c [Hb Hinb] [Hc Hinc]. split; [congruence|].
  intros x. unfold GetSystemEntities.
  rewrite Hinc, Hinb, !elem_of_set_iter. done.
Qed.

Lemma Update_empty_queues (r : Registry) :
  entitiesToBeAdded r = ∅ → entitiesToBeKilled r = ∅ → Update r = Returns tt r.
Proof.
  intros Ha Hk. unfold Update. mstep. rewrite Ha, set_iter_empty. simpl.
  mstep. mstep. mstep. rewrite Hk, set_iter_empty. simpl. mstep.
  destruct r. simpl in *. by subst.
Qed.

(** C2. The matched entities of the systems change in [Update] only.
    [CreateEntity], [AddComponent] and [RemoveComponent] (whether they
    return or throw) and enqueuing a kill leave every system as it is.
    [Update] puts every entity of [toAdd] through [AddEntityToSystems],
    then takes every entity of [toKill] out of every system, and empties
    both queues: a system holds afterwards what it held before and the
    entities of [toAdd] that match it, less the entities of [toKill].
    With both queues empty it changes nothing at all. *)
Theorem membership_changes_only_in_Update :
  (∀ r : Registry,
     ∃ e r', CreateEntity r = Returns e r' ∧ systems r' = systems r) ∧
  (∀ T e v (w w' : World),
     final_state (AddComponent T e v w) = Some w' →
     systems (registry w') = systems (registry w)) ∧
  (∀ T e (w w' : World),
     final_state (RemoveComponent T e w) = Some w' →
     systems (registry w') = systems (registry w)) ∧
  (∀ e (r : Registry),
     ∃ r', EnqueueKill e r = Returns tt r' ∧ systems r' = systems r) ∧
  (∀ r : Registry,
     entitiesToBeAdded r = ∅ → entitiesToBeKilled r = ∅ →
     Update r = Returns tt r) ∧
  (∀ r : Registry,
        (∀ e, e ∈ entitiesToBeAdded r →
              is_Some (entityComponentSignatures r !! N.to_nat (id e))) →
        ∃ r', Update r = Returns tt r' ∧
              entitiesToBeAdded r' = ∅ ∧ entitiesToBeKilled r' = ∅ ∧
              systems_related
                (λ sys sys',
                   componentSignature sys' = componentSignature sys ∧
                   ∀ x, x ∈ GetSystemEntities sys' ↔
                        (x ∈ GetSystemEntities sys ∨
                         (x ∈ entitiesToBeAdded r ∧ matches r x sys)) ∧
                        x ∉ entitiesToBeKilled r)
                (systems r) (systems r')).
Proof.
  split_and!.
  - intros r. destruct (CreateEntity_eval r) as (r' & Hrun & Hsys & _).
    by eexists _, r'.
  - intros T e v w w' H. by apply (AddComponent_same_systems T e v w w').
  - intros T e w w' H. by apply (RemoveComponent_same_systems T e w w').
  - intros e r. eexists. by rewrite EnqueueKill_eval.
  - apply Update_empty_queues.
  - intros r Hvalid.
    destruct (Update_eval r Hvalid) as (r' & Hrun & Ha & Hk & _ & _ & _ & Hrel).
    by exists r'.
Qed.

(** ** Required signatures *)

Lemma RequireComponent_inv T sys st sys' st' :
  RequireComponent T sys st = Returns sys' st' →
  ∃ cid, GetId T st = Returns cid st' ∧ cid < MAX_COMPONENTS ∧
         sys' = mkSystem (N.setbit (componentSignature sys) cid) (entities sys).
Proof. unfold RequireComponent. intros H. minv. by eexists. Qed.

(** What a constructor declaring the kinds [Ts] has built: the bits set
    are those the system had and the ids of the kinds declared. *)
Lemma RequireComponents_inv Ts : ∀ sys st sys' st',
  RequireComponents Ts sys st = Returns sys' st' →
  entities sys' = entities sys ∧
  (∀ T i, ids st !! T = Some i → ids st' !! T = Some i) ∧
  (∀ T, T ∈ Ts → ∃ i, ids st' !! T = Some i ∧ i < MAX_COMPONENTS) ∧
  (∀ b, N.testbit (componentSignature sys') b = true ↔
        N.testbit (componentSignature sys) b = true ∨
        ∃ T, T ∈ Ts ∧ ids st' !! T = Some b).
Proof.
  induction Ts as [|T Ts IH]; intros sys st sys' st' Hrun; simpl in Hrun.
  - apply mret_inv in Hrun as [-> ->]. split_and!; try done.
    + intros T. by rewrite elem_of_nil.
    + intros b. split; [by left|]. intros [?|(T & HT & _)]; [done|].
      by apply elem_of_nil in HT.
  - apply bind_inv_Returns in Hrun as (sys1 & st1 & H1 & Hrun).
    apply RequireComponent_inv in H1 as (cid & Hid & Hcid & ->).
    destruct (IH _ _ _ _ Hrun) as (Hent & Hkeep & Hall & Hbits). simpl in *.
    pose proof (Hkeep _ _ (GetId_owns _ _ _ _ Hid)) as Hown.
    split_and!; try done.
    + intros U i HU. apply Hkeep. by eapply GetId_keeps.
    + intros U. rewrite elem_of_cons. intros [->|HU]; [by eauto|by apply Hall].
    + intros b. rewrite Hbits, N.setbit_iff. split.
      * intros [[<-|Hb]|(U & HU & Hb)].
        -- right. exists T. split; [by left|done].
        -- by left.
        -- right. exists U. split; [by right|done].
      * intros [Hb|(U & HU & Hb)]; [by left; right|].
        apply elem_of_cons in HU as [->|HU].
        -- left; left. congruence.
        -- right. by exists U.
Qed.

(** A system built by declaring [Ts] matches a signature exactly when the
    signature has the bit of every kind of [Ts], whatever the order and
    the repetitions of the declarations. *)
Lemma RequireComponents_interested Ts st sys st' :
  RequireComponents Ts System_new st = Returns sys st' →
  ∀ sig, interested sig (GetComponentSignature sys) = true ↔
         ∀ T i, T ∈ Ts → ids st' !! T = Some i → N.testbit sig i = true.
Proof.
  intros Hrun sig.
  destruct (RequireComponents_inv _ _ _ _ _ Hrun) as (_ & _ & _ & Hbits).
  rewrite interested_bits. unfold GetComponentSignature. split.
  - intros H T i HT Hi. apply H, Hbits. right. by exists T.
  - intros H b Hb. apply Hbits in Hb as [Hb|(T & HT & Hi)].
    + by destruct b.
    + by eapply H.
Qed.

(** Declaring the same kinds in another order gives the same required
    signature, the ids of the kinds being the same. *)
Lemma RequireComponents_order Ts Ts' st1 st2 sys1 sys2 st1' st2' :
  Ts ≡ₚ Ts' →
  RequireComponents Ts System_new st1 = Returns sys1 st1' →
  RequireComponents Ts' System_new st2 = Returns sys2 st2' →
  (∀ T, T ∈ Ts → ids st1' !! T = ids st2' !! T) →
  componentSignature sys1 = componentSignature sys2.
Proof.
  intros Hperm H1 H2 Hsame.
  destruct (RequireComponents_inv _ _ _ _ _ H1) as (_ & _ & _ & Hbits1).
  destruct (RequireComponents_inv _ _ _ _ _ H2) as (_ & _ & _ & Hbits2).
  apply N.bits_inj. intros b. apply eq_true_iff_eq.
  rewrite Hbits1, Hbits2.
  split; (intros [Hb|(T & HT & Hb)]; [by destruct b|]); right; exists T.
  - rewrite <- Hperm. split; [done|]. by rewrite <- Hsame.
  - rewrite Hperm. split; [done|]. rewrite Hsame; [done|]. by rewrite Hperm.
Qed.

(** C1, as the code has it.  [AddEntityToSystems(e)] adds [e] to a
    registered system exactly when the bitwise AND of the signature of [e]
    with the required signature equals the required signature, which is
    the superset test on the bits.  The required signature is the set of
    the ids of the kinds declared, so the order of the declarations does
    not matter.  In particular a system requiring [A] and [B] acquires an
    entity in [Update()] only if the bits of [A] and of [B] are both set in
    the signature of the entity at that [Update()].  A member stays:
    [RemoveComponent] leaves the systems alone and [Update()] keeps every
    member that is not queued for a kill. *)
Theorem matching_rule_superset_test :
  (∀ (r : Registry) e sig,
     entityComponentSignatures r !! N.to_nat (id e) = Some sig →
     ∃ r', AddEntityToSystems e r = Returns tt r' ∧
           same_but_systems r r' ∧
           systems_related
             (λ sys sys',
                let required := GetComponentSignature sys in
                sys' = (if decide (N.land sig required = required)
                        then AddEntityToSystem e sys else sys) ∧
                (e ∈ GetSystemEntities sys' ↔
                   e ∈ GetSystemEntities sys ∨ N.land sig required = required) ∧
                (∀ x, x ≠ e →
                   x ∈ GetSystemEntities sys' ↔ x ∈ GetSystemEntities sys))
             (systems r) (systems r')) ∧
  (∀ sig required : Signature,
     N.land sig required = required ↔
     ∀ b, N.testbit required b = true → N.testbit sig b = true) ∧
  (∀ Ts st sys st',
     RequireComponents Ts System_new st = Returns sys st' →
     ∀ sig, N.land sig (GetComponentSignature sys) = GetComponentSignature sys ↔
            ∀ T i, T ∈ Ts → ids st' !! T = Some i → N.testbit sig i = true) ∧
  (∀ Ts Ts' st1 st2 sys1 sys2 st1' st2',
     Ts ≡ₚ Ts' →
     RequireComponents Ts System_new st1 = Returns sys1 st1' →
     RequireComponents Ts' System_new st2 = Returns sys2 st2' →
     (∀ T, T ∈ Ts → ids st1' !! T = ids st2' !! T) →
     GetComponentSignature sys1 = GetComponentSignature sys2) ∧
  (∀ A B st sys0 st' (r : Registry) K sys r' sys' x,
     RequireComponents [A; B] System_new st = Returns sys0 st' →
     systems r !! K = Some sys →
     GetComponentSignature sys = GetComponentSignature sys0 →
     (∀ e, e ∈ entitiesToBeAdded r →
           is_Some (entityComponentSignatures r !! N.to_nat (id e))) →
     Update r = Returns tt r' →
     systems r' !! K = Some sys' →
     x ∈ GetSystemEntities sys' → x ∉ GetSystemEntities sys →
     ∃ a b sig,
       ids st' !! A = Some a ∧ ids st' !! B = Some b ∧
       entityComponentSignatures r !! N.to_nat (id x) = Some sig ∧
       N.testbit sig a = true ∧ N.testbit sig b = true) ∧
  (∀ T e (w w' : World),
     RemoveComponent T e w = Returns tt w' →
     systems (registry w') = systems (registry w)) ∧
  (∀ (r : Registry) K sys r' x,
     systems r !! K = Some sys →
     (∀ e, e ∈ entitiesToBeAdded r →
           is_Some (entityComponentSignatures r !! N.to_nat (id e))) →
     Update r = Returns tt r' →
     x ∈ GetSystemEntities sys → x ∉ entitiesToBeKilled r →
     ∃ sys', systems r' !! K = Some sys' ∧ x ∈ GetSystemEntities sys').
Proof.
  split_and!.
  - intros r e sig Hsig. eexists.
    rewrite (AddEntityToSystems_eval _ _ _ Hsig). split; [done|].
    split; [done|]. simpl. apply systems_related_fmap. intros sys. simpl.
    unfold interested, GetSystemEntities, GetComponentSignature.
    destruct (decide (N.land sig (componentSignature sys) = componentSignature sys))
      as [Heq|Hne].
    + rewrite bool_decide_eq_true_2 by done. split; [done|]. split.
      * rewrite (proj2 (AddEntityToSystem_spec e e sys)). tauto.
      * intros x Hx. rewrite (proj2 (AddEntityToSystem_spec e x sys)). tauto.
    + rewrite bool_decide_eq_false_2 by done. split; [done|]. split; tauto.
  - intros sig required. rewrite <- interested_bits. unfold interested.
    by rewrite bool_decide_eq_true.
  - intros Ts st sys st' Hrun sig.
    rewrite <- (RequireComponents_interested _ _ _ _ Hrun). unfold interested.
    by rewrite bool_decide_eq_true.
  - apply RequireComponents_order.
  - intros A B st sys0 st' r K sys r' sys' x Hreq HK Hsame Hvalid Hup HK' Hin Hnot.
    destruct (Update_eval r Hvalid) as (r'' & Hup' & _ & _ & _ & _ & _ & Hrel).
    assert (r'' = r') as -> by congruence.
    destruct (systems_related_lookup _ _ _ _ _ Hrel HK) as (sys'' & HK'' & _ & Hmem).
    assert (sys'' = sys') as -> by congruence.
    apply Hmem in Hin as [[?|[_ (sig & Hsig & Hint)]] _]; [done|].
    rewrite Hsame in Hint.
    pose proof (proj1 (RequireComponents_interested _ _ _ _ Hreq sig) Hint) as Hbits.
    destruct (RequireComponents_inv _ _ _ _ _ Hreq) as (_ & _ & Hall & _).
    destruct (Hall A) as (a & Ha & _); [by left|].
    destruct (Hall B) as (b & Hb & _); [by right; left|].
    exists a, b, sig. split_and!; try done.
    + apply (Hbits A); [by left|done].
    + apply (Hbits B); [by right; left|done].
  - intros T e w w' Hrun.
    apply (RemoveComponent_same_systems T e w w'). by rewrite Hrun.
  - intros r K sys r' x HK Hvalid Hup Hin Hnot.
    destruct (Update_eval r Hvalid) as (r'' & Hup' & _ & _ & _ & _ & _ & Hrel).
    assert (r'' = r') as -> by congruence.
    destruct (systems_related_lookup _ _ _ _ _ Hrel HK) as (sys' & HK' & _ & Hmem).
    exists sys'. split; [done|]. apply Hmem. split; [by left|done].
Qed.

(** ** Pools only grow *)


#[local] Instance ids_keep_preorder : PreOrder ids_keep.
Proof.
  split.
  - intros st T i H. exact H.
  - intros s1 s2 s3 H1 H2 T i H. by apply H2, H1.
Qed.

Lemma GetId_ids_keep T : preserves ids_keep (GetId T).
Proof.
  intros st st' H U i HU.
  destruct (GetId_returns T st) as (j & st'' & Hj & _). rewrite Hj in H.
  injection H as <-. by eapply GetId_keeps.
Qed.

Lemma RequireComponents_ids_keep Ts sys : preserves ids_keep (RequireComponents Ts sys).
Proof.
  revert sys. induction Ts as [|T Ts IH]; intros sys; simpl.
  - pres.
  - apply preserves_bind; [apply _| |done].
    unfold RequireComponent. apply preserves_bind; [apply _| |intros cid; pres].
    apply GetId_ids_keep.
Qed.

#[local] Instance pools_kept_preorder : PreOrder (pools_kept (value:=value)).
Proof.
  split.
  - intros r. by split.
  - intros r1 r2 r3 [H1 H1'] [H2 H2']. split; [congruence|auto].
Qed.

Ltac pres_w :=
  repeat first
    [ apply preserves_in_reg
    | apply preserves_in_ids
    | apply preserves_in_ids_reg; apply _
    | apply preserves_in_reg_ids; apply _
    | apply GetId_ids_keep
    | apply RequireComponents_ids_keep
    | pres_step ].

Lemma step_ids_keep (o : op) : preserves (on_ids ids_keep) (step o).
Proof.
  destruct o; simpl;
    unfold AddComponent, RemoveComponent, HasComponent, GetComponent, AddSystem;
    pres_w.
Qed.

Lemma wrap32_lt n : wrap32 n < UINT_MODULUS.
Proof. unfold wrap32. by apply N.mod_lt. Qed.

Lemma step_pools_kept (o : op) :
  (∀ T e v, o ≠ OpAddComponent T e v) → preserves (on_reg pools_kept) (step o).
Proof.
  intros Hnot. destruct o; simpl; try (by edestruct Hnot);
    unfold RemoveComponent, HasComponent, GetComponent, AddSystem, CreateEntity,
      EnqueueKill, Update, AddEntityToSystems, RemoveEntityFromSystems,
      RemoveSystem, HasSystem, GetSystem;
    pres_w; try (by split).
  - split; [done|]. intros _. simpl. apply wrap32_lt.
  - unfold Pool_Get. pres.
  - by destruct (systems s !! S).
Qed.



(** One operation, from a registry whose sizes fit. *)
Lemma step_pools (o : op) (w w' : World) :
  Registry_wf (registry w) →
  step o w = Returns tt w' →
  Registry_wf (registry w') ∧
  ids_keep (cids w) (cids w') ∧
  pools_grow_except (writes [o] (cids w')) (registry w) (registry w') ∧
  (∀ T e v, o = OpAddComponent T e v →
     ∃ cid p, ids (cids w') !! T = Some cid ∧
              componentPools (registry w') !! N.to_nat cid = Some (Some p) ∧
              id e < vec_size (data p)).
Proof.
  intros [Hnum Hbound] Hstep.
  assert (ids_keep (cids w) (cids w')) as Hids.
  { apply (step_ids_keep o w w'). by rewrite Hstep. }
  assert ((∃ T e v, o = OpAddComponent T e v) ∨
          (∀ T e v, o ≠ OpAddComponent T e v)) as [(T & e & v & ->)|Hnot]
    by (destruct o; first [by right|left; by eauto]).
  - simpl in Hstep. pose proof (AddComponent_inv _ _ _ _ _ Hstep) as Hinv.
    cbv zeta in Hinv.
    destruct Hinv as (cid & sig & p' & Hid & Hcid & _ & _ & Hn & _ & _ & _ &
                      Hp' & Hv & Hother & Hnone & Hgrow & Hfit).
    pose proof (GetId_owns _ _ _ _ Hid) as Hown.
    assert (vec_size (data p') < UINT_MODULUS) as Hp'fit.
    { apply Hfit; [done|]. intros p. apply Hbound. }
    split_and!; try done.
    + split; [by rewrite Hn|]. intros i p Hp.
      destruct (decide (i = N.to_nat cid)) as [->|Hne]; [congruence|].
      eapply Hbound, Hnone; done.
    + intros i p Hp. destruct (decide (i = N.to_nat cid)) as [->|Hne].
      * exists p'. split; [done|].
        destruct (Hgrow p Hp (Hbound _ _ Hp)) as [Hlen Hkeep]. split; [done|].
        intros j x Hw Hx. apply Hkeep; [|done]. intros ->. apply Hw.
        exists T, e, v. split; [by left|]. split; [by exists cid|done].
      * exists p. split; [by apply Hother|]. by split.
    + intros T' e' v' [= <- <- <-]. exists cid, p'. split_and!; try done.
      pose proof (lookup_lt_Some _ _ _ Hv). unfold vec_size. lia.
  - assert (pools_kept (registry w) (registry w')) as [Hsame Hn].
    { apply (step_pools_kept o); [done|by rewrite Hstep]. }
    split_and!; try done.
    + split; [by apply Hn|]. rewrite Hsame. apply Hbound.
    + intros i p Hp. exists p. rewrite Hsame. by split_and!.
    + intros T e v ->. by edestruct Hnot.
Qed.








(** * Further properties of the header *)

(** ** AddComponent in closed form *)

(** What [AddComponent] does, step by step, for a kind id that does not
    wrap the size of the vector of pools. *)
Lemma AddComponent_eval (w : World) T e v cid st1 :
  GetId T (cids w) = Returns cid st1 →
  cid + 1 < UINT_MODULUS →
  let r := registry w in
  let pools1 :=
    if decide (vec_size (componentPools r) ≤ cid)
    then vec_resize (componentPools r) (cid + 1) None
    else componentPools r in
  let p0 := match pools1 !! N.to_nat cid with
            | Some (Some p) => p
            | _ => Pool_new T
            end in
  let p1 := if decide (Pool_GetSize p0 ≤ id e)
            then Pool_Resize T (numEntities r) p0 else p0 in
  let pools3 :=
    <[N.to_nat cid := Some (mkPool (<[N.to_nat (id e) := v]> (data p1)))]> pools1 in
  AddComponent T e v w =
    if decide (id e < vec_size (data p1))
    then match entityComponentSignatures r !! N.to_nat (id e) with
         | None => Undefined
         | Some sig =>
             if decide (cid < MAX_COMPONENTS)
             then Returns tt
                    (mkWorld st1
                       (with_entityComponentSignatures
                          (<[N.to_nat (id e) := N.setbit sig cid]>
                             (entityComponentSignatures r))
                          (with_componentPools pools3 r)))
             else Throws (mkWorld st1 (with_componentPools pools3 r))
         end
    else Undefined.
Proof.
  intros Hid Hcid. destruct w as [st r]. simpl in *.
  unfold AddComponent.
  erewrite bind_Returns by (by apply zoom_Returns). simpl.
  unfold in_reg, zoom, Entity_GetId. simpl.
  mstep.
  set (pools1 := if decide (vec_size (componentPools r) ≤ cid)
                 then vec_resize (componentPools r) (cid + 1) None
                 else componentPools r).
  set (r1 := with_componentPools pools1 r).
  assert (N.to_nat cid < length pools1)%nat as Hlt1.
  { unfold pools1. case_decide as Hsz.
    - rewrite vec_resize_length. lia.
    - unfold vec_size in Hsz. lia. }
  erewrite (bind_Returns _ _ r tt r1).
  2:{ unfold r1, pools1. case_decide; [by rewrite wrap32_small|by destruct r]. }
  mstep.
  destruct (lookup_lt_is_Some_2 _ _ Hlt1) as [slot Hslot].
  mstep. rewrite Hslot.
  set (p0 := match slot with Some p => p | None => Pool_new T end).
  set (pools2 := <[N.to_nat cid := Some p0]> pools1).
  erewrite (bind_Returns _ _ r1 tt (with_componentPools pools2 r)).
  2:{ unfold pools2, p0. destruct slot as [p|]; simpl; [|done].
      unfold mret, M_ret. f_equal. rewrite list_insert_id by done. done. }
  mstep.
  erewrite bind_Returns
    by (apply vec_at_Some; unfold pools2; by apply list_lookup_insert_eq).
  simpl. rewrite bind_mret. mstep.
  set (p1 := if decide (Pool_GetSize p0 ≤ id e)
             then Pool_Resize T (numEntities r) p0 else p0).
  unfold Pool_Set.
  destruct (decide (id e < vec_size (data p1))) as [Hin|Hout]; [|done].
  rewrite bind_mret. mstep. mstep. simpl.
  unfold pools2. rewrite list_insert_insert_eq.
  unfold vec_at at 1.
  destruct (entityComponentSignatures r !! N.to_nat (id e)) as [sig|]; [|done].
  rewrite bind_mret. unfold bitset_set.
  destruct (decide (cid < MAX_COMPONENTS)); [|done].
  by rewrite bind_mret.
Qed.

(** ** Pool<T> *)

Lemma Pool_Get_Some {St} (p : Pool) j x (s : St) :
  data p !! N.to_nat j = Some x → Pool_Get j p s = Returns x s.
Proof. intros H. unfold Pool_Get. by apply vec_at_Some. Qed.

Lemma Pool_Get_None {St} (p : Pool) j (s : St) :
  data p !! N.to_nat j = None → Pool_Get j p s = Undefined.
Proof. intros H. unfold Pool_Get. by apply vec_at_None. Qed.

(** X1. [Set] followed by [Get] (or [operator[]]) at the same index, one
    that is within the pool, gives back the object stored; the pool keeps
    its size and every other slot. *)
Theorem Pool_Set_then_Get {St} (p : Pool) index object (s : St) :
  index < vec_size (data p) →
  ∃ p', Pool_Set index object p s = Returns p' s ∧
        Pool_Get index p' s = Returns object s ∧
        Pool_index index p' s = Returns object s ∧
        vec_size (data p') = vec_size (data p) ∧
        Pool_GetSize p' = Pool_GetSize p ∧
        ∀ j, j ≠ index → Pool_Get j p' s = Pool_Get j p s.
Proof.
  intros Hin. eexists. unfold Pool_Set. rewrite decide_True by done.
  split; [done|].
  assert (N.to_nat index < length (data p))%nat by (unfold vec_size in Hin; lia).
  unfold Pool_Get, Pool_index, Pool_GetSize, vec_size. simpl.
  rewrite length_insert. split_and!; try done.
  - apply vec_at_Some. by apply list_lookup_insert_eq.
  - apply vec_at_Some. by apply list_lookup_insert_eq.
  - intros j Hj. unfold vec_at. rewrite list_lookup_insert_ne by lia. done.
Qed.

(** X2. [Add] appends: the object lands in the slot numbered by the old
    size, the slots below keep what they held, and the pool is not empty.
    [GetSize] follows as long as the new size fits an [unsigned int]; at
    2^32 slots it reports 0 for a pool that is not empty. *)
Theorem Pool_Add_appends {St} (p : Pool) object (s : St) :
  let p' := Pool_Add object p in
  Pool_Get (vec_size (data p)) p' s = Returns object s ∧
  vec_size (data p') = vec_size (data p) + 1 ∧
  Pool_IsEmpty p' = false ∧
  (∀ j, j < vec_size (data p) → Pool_Get j p' s = Pool_Get j p s) ∧
  (vec_size (data p) + 1 < UINT_MODULUS → Pool_GetSize p' = Pool_GetSize p + 1) ∧
  (vec_size (data p) + 1 = UINT_MODULUS → Pool_GetSize p' = 0).
Proof.
  unfold Pool_Add, Pool_GetSize, Pool_IsEmpty, vec_size. simpl.
  rewrite length_app. simpl. split_and!.
  - apply Pool_Get_Some. simpl. rewrite Nat2N.id.
    by rewrite lookup_app_r, Nat.sub_diag by lia.
  - lia.
  - apply bool_decide_eq_false. by destruct (data p).
  - intros j Hj. unfold Pool_Get, vec_at. simpl.
    by rewrite lookup_app_l by lia.
  - intros Hfit. rewrite !wrap32_small by lia. lia.
  - intros Hfull.
    replace (N.of_nat (length (data p) + 1)) with UINT_MODULUS by lia.
    reflexivity.
Qed.

(** X3. An access beyond the last slot, by [Get], [operator[]] or [Set],
    is undefined behaviour: none of the three checks its index. *)
Theorem Pool_access_out_of_range {St} (p : Pool) index object (s : St) :
  vec_size (data p) ≤ index →
  Pool_Get index p s = Undefined ∧
  Pool_index index p s = Undefined ∧
  Pool_Set index object p s = Undefined.
Proof.
  intros Hout.
  assert (data p !! N.to_nat index = None) as Hnone.
  { apply lookup_ge_None. unfold vec_size in Hout. lia. }
  split_and!.
  - by apply Pool_Get_None.
  - by apply vec_at_None.
  - unfold Pool_Set. by rewrite decide_False by lia.
Qed.

(** X4. [Clear] leaves a pool that is empty and of size 0, in which every
    [Get] and [Set] is undefined behaviour; an [Add] after it fills slot 0. *)
Theorem Pool_Clear_empties {St} (p : Pool) (s : St) :
  Pool_IsEmpty (Pool_Clear p) = true ∧
  Pool_GetSize (Pool_Clear p) = 0 ∧
  (∀ index object,
     Pool_Get index (Pool_Clear p) s = Undefined ∧
     Pool_Set index object (Pool_Clear p) s = Undefined) ∧
  (∀ object,
     Pool_Get 0 (Pool_Add object (Pool_Clear p)) s = Returns object s ∧
     Pool_GetSize (Pool_Add object (Pool_Clear p)) = 1).
Proof.
  split_and!; try done.
  intros index object. split.
  - by apply Pool_Get_None.
  - unfold Pool_Set, Pool_Clear, vec_size. simpl. by rewrite decide_False by lia.
Qed.

(** X5. [Resize(n)] leaves exactly [n] slots: the slots below both [n]
    and the old size keep what they held, the slots from the old size up
    hold a default-constructed [T()], and the slots from [n] up are gone,
    so that [Resize] with a smaller [n] shrinks the pool.  A pool fresh
    from its constructor has 100 default-constructed slots. *)
Theorem Pool_Resize_slots {St} T n (p : Pool) (s : St) :
  vec_size (data (Pool_Resize T n p)) = n ∧
  (∀ j, Pool_Get j (Pool_Resize T n p) s =
          if decide (j < n)
          then if decide (j < vec_size (data p))
               then Pool_Get j p s else Returns (T_default T) s
          else Undefined) ∧
  Pool_IsEmpty (Pool_Resize T n p) = bool_decide (n = 0) ∧
  Pool_GetSize (Pool_new T) = 100 ∧
  (∀ j, Pool_Get j (Pool_new T) s =
          if decide (j < 100) then Returns (T_default T) s else Undefined).
Proof.
  assert (∀ (q : Pool) m j,
            Pool_Get j (Pool_Resize T m q) s =
              if decide (j < m)
              then if decide (j < vec_size (data q))
                   then Pool_Get j q s else Returns (T_default T) s
              else Undefined) as Hslots.
  { intros q m j. unfold Pool_Get, Pool_Resize, vec_size. simpl.
    destruct (decide (j < m)) as [Hjm|Hjm].
    - destruct (decide (j < N.of_nat (length (data q)))) as [Hjq|Hjq].
      + unfold vec_at. by rewrite vec_resize_lookup_old by lia.
      + apply vec_at_Some. apply vec_resize_lookup_new; lia.
    - apply vec_at_None, lookup_ge_None. rewrite vec_resize_length. lia. }
  split_and!.
  - apply vec_resize_size.
  - apply Hslots.
  - unfold Pool_IsEmpty, Pool_Resize. simpl. apply bool_decide_ext.
    rewrite <- length_zero_iff_nil, vec_resize_length. lia.
  - unfold Pool_GetSize. by rewrite Pool_new_size.
  - intros j. change (Pool_new T) with (Pool_Resize T 100 (mkPool [])).
    rewrite Hslots. case_decide; [|done]. simpl.
    rewrite decide_False; [done|]. unfold vec_size. simpl. lia.
Qed.

(** ** Entity *)

(** X6. The comparison operators of [Entity] compare the ids and agree
    with each other: [==] holds exactly of two handles with the same id,
    [!=] is its negation, [>] the converse of [<]; exactly one of [<],
    [==], [>] holds of two entities; and [<] is irreflexive and
    transitive, with two entities that are not below each other being
    [==], so that a [std::set<Entity>] holds one entity per id. *)
Theorem Entity_operators_consistent (a b c : Entity) :
  (Entity_eq a b = true ↔ id a = id b) ∧
  Entity_ne a b = negb (Entity_eq a b) ∧
  Entity_gt a b = Entity_lt b a ∧
  (Entity_lt a b = true ∨ Entity_eq a b = true ∨ Entity_gt a b = true) ∧
  ¬ (Entity_lt a b = true ∧ Entity_eq a b = true) ∧
  ¬ (Entity_lt a b = true ∧ Entity_gt a b = true) ∧
  ¬ (Entity_eq a b = true ∧ Entity_gt a b = true) ∧
  Entity_lt a a = false ∧
  (Entity_lt a b = true → Entity_lt b c = true → Entity_lt a c = true) ∧
  (Entity_lt a b = false → Entity_lt b a = false → Entity_eq a b = true).
Proof.
  unfold Entity_eq, Entity_ne, Entity_gt, Entity_lt.
  rewrite !N.eqb_eq, !N.ltb_lt, !N.ltb_ge. split_and!; try done; lia.
Qed.

(** ** Component identities *)

Lemma GetIds_keeps Ts : ∀ st results st' T i,
  GetIds Ts st = Returns results st' → ids st !! T = Some i → ids st' !! T = Some i.
Proof.
  induction Ts as [|T0 Ts IH]; intros st results st' T i Hrun Hi.
  - by injection Hrun as <- <-.
  - apply GetIds_cons_inv in Hrun as (i0 & st1 & rest & H0 & Hrest & ->).
    eapply IH; [done|]. by eapply GetId_keeps.
Qed.

(** The id a call returned is the id its kind holds at the end. *)
Lemma GetIds_final Ts : ∀ st results st' T k i,
  GetIds Ts st = Returns results st' →
  Ts !! k = Some T → results !! k = Some i → ids st' !! T = Some i.
Proof.
  induction Ts as [|T0 Ts IH]; intros st results st' T k i Hrun Hk Hi; [done|].
  apply GetIds_cons_inv in Hrun as (i0 & st1 & rest & H0 & Hrest & ->).
  destruct k as [|k]; simpl in *.
  - simplify_eq. eapply GetIds_keeps; [done|]. by eapply GetId_owns.
  - by eapply IH.
Qed.

Lemma GetId_wf_counted T st i st' :
  GetId T st = Returns i st' → counts_kinds st → ids_wf st →
  N.of_nat (size (dom (ids st'))) < UINT_MODULUS → ids_wf st'.
Proof.
  intros H Hc [Hlt Hinj] Hsmall.
  destruct (ids st !! T) as [k|] eqn:E.
  - rewrite (GetId_known _ _ _ E) in H. by simplify_eq.
  - rewrite (GetId_fresh _ _ E) in H. simplify_eq. simpl in *.
    rewrite dom_insert_L, size_union in Hsmall
      by (apply disjoint_singleton_l; by apply not_elem_of_dom).
    rewrite size_singleton in Hsmall.
    assert (nextId st = N.of_nat (size (dom (ids st)))) as Hn.
    { rewrite Hc. apply wrap32_small. lia. }
    split; simpl; rewrite ?wrap32_small by lia.
    + intros U i. destruct (decide (U = T)) as [->|Hne].
      * rewrite lookup_insert_eq. intros [= <-]. lia.
      * rewrite lookup_insert_ne by done. intros HU. apply Hlt in HU. lia.
    + intros U V i.
      destruct (decide (U = T)) as [->|HU], (decide (V = T)) as [->|HV];
        rewrite ?lookup_insert_eq, ?lookup_insert_ne by done; try done.
      * intros [= <-] H2. apply Hlt in H2. lia.
      * intros H1 [= <-]. apply Hlt in H1. lia.
      * apply Hinj.
Qed.

Lemma GetIds_wf_counted Ts : ∀ st results st',
  GetIds Ts st = Returns results st' → counts_kinds st → ids_wf st →
  N.of_nat (size (dom (ids st'))) < UINT_MODULUS → ids_wf st'.
Proof.
  induction Ts as [|T Ts IH]; intros st results st' Hrun Hc Hwf Hsmall.
  - by injection Hrun as <- <-.
  - apply GetIds_cons_inv in Hrun as (i & st1 & rest & Hi & Hrest & ->).
    destruct (GetId_counts _ _ _ _ Hi Hc) as [Hc1 Hdom1].
    destruct (GetIds_counts _ _ _ _ Hrest Hc1) as [_ Hdom'].
    eapply IH; [done|done| |done].
    eapply GetId_wf_counted; [done|done|done|].
    assert (size (dom (ids st1)) ≤ size (dom (ids st')))%nat; [|lia].
    apply subseteq_size. rewrite Hdom'. apply union_subseteq_r.
Qed.

(** X7. Over a process run with fewer than 2^32 kinds, two calls of
    [GetId] return the same id only for the same kind: kinds never share
    an id, so a pool is only ever read at the type it was written at. *)
Theorem GetId_distinct_kinds_distinct_ids (calls : list string) :
  N.of_nat (size (list_to_set calls : gset string)) < UINT_MODULUS →
  ∃ results st,
    GetIds calls IdState_init = Returns results st ∧
    ∀ k1 k2 T U i,
      calls !! k1 = Some T → calls !! k2 = Some U →
      results !! k1 = Some i → results !! k2 = Some i → T = U.
Proof.
  intros Hsmall.
  destruct (GetIds_returns calls IdState_init) as (results & st & Hrun).
  exists results, st. split; [done|].
  destruct (GetIds_counts _ _ _ _ Hrun counts_kinds_init) as [_ Hdom].
  assert (ids_wf st) as [_ Hinj].
  { eapply GetIds_wf_counted; [done|exact counts_kinds_init|exact ids_wf_init|].
    rewrite Hdom. simpl. by rewrite dom_empty_L, (right_id_L ∅ (∪)). }
  intros k1 k2 T U i H1 H2 Hr1 Hr2.
  eapply Hinj; by eapply GetIds_final.
Qed.

(** ** Components: what is kept, what is overwritten *)

Lemma GetComponent_inv (w w' : World) T e x :
  GetComponent T e w = Returns x w' →
  ∃ cid p, GetId T (cids w) = Returns cid (cids w') ∧
           registry w' = registry w ∧
           componentPools (registry w) !! N.to_nat cid = Some (Some p) ∧
           data p !! N.to_nat (id e) = Some x.
Proof.
  intros H. destruct w as [st r]. unfold GetComponent, Pool_Get in H.
  minv. by eexists _, _.
Qed.

Lemma N_setbit_idem a n : N.setbit (N.setbit a n) n = N.setbit a n.
Proof.
  apply N.bits_inj. intros m. rewrite !N.setbit_eqb.
  by destruct (n =? m).
Qed.

Lemma N_clearbit_idem a n : N.clearbit (N.clearbit a n) n = N.clearbit a n.
Proof.
  apply N.bits_inj. intros m. rewrite !N.clearbit_eqb.
  by destruct (n =? m), (N.testbit a m).
Qed.

Lemma N_clearbit_clear a n : N.testbit a n = false → N.clearbit a n = a.
Proof.
  intros H. apply N.bits_inj. intros m. rewrite N.clearbit_eqb.
  destruct (n =? m) eqn:E; simpl; [|by rewrite andb_true_r].
  apply N.eqb_eq in E as ->. by rewrite H.
Qed.

(** A component of another kind or another entity reads the same after
    [AddComponent<T>(e, _)]. *)
Lemma AddComponent_frame (w w' : World) T e v U cu e' x :
  ids_wf (cids w) → Registry_wf (registry w) →
  AddComponent T e v w = Returns tt w' →
  ids (cids w) !! U = Some cu →
  U ≠ T ∨ id e' ≠ id e →
  GetComponent U e' w = Returns x w →
  GetComponent U e' w' = Returns x w'.
Proof.
  intros Hwf [_ Hbound] Hadd HU Hother Hget.
  pose proof (AddComponent_inv _ _ _ _ _ Hadd) as Hinv. cbv zeta in Hinv.
  destruct Hinv as (cid & sig & p' & Hid & Hcid & _ & _ & _ & _ & _ & _ &
                    Hp' & _ & Hrest & _ & Hgrow & _).
  apply GetComponent_inv in Hget as (cu' & pu & HidU & _ & Hpu & Hx).
  rewrite (GetId_known _ _ _ HU) in HidU. injection HidU as <-.
  assert (GetId U (cids w') = Returns cu (cids w')) as HidU'.
  { apply GetId_known. by eapply GetId_keeps. }
  destruct w' as [st' r']. simpl in *.
  destruct (decide (cu = cid)) as [->|Hne].
  - assert (U = T) as ->.
    { destruct (decide (U = T)) as [|HUT]; [done|].
      by destruct (GetId_distinct _ _ _ _ _ _ Hwf HUT Hid HU). }
    destruct Hother as [?|He']; [done|].
    destruct (Hgrow pu Hpu (Hbound _ _ Hpu)) as [_ Hkeep].
    eapply GetComponent_eval; [done|done|]. apply Hkeep; [lia|done].
  - eapply GetComponent_eval; [done| |done]. apply Hrest; [lia|done].
Qed.

(** X8. [AddComponent<T>(e, _)] changes the component of kind [T] of
    entity [e] and nothing else that can be read: a component of another
    kind, or of another entity, reads as before, the signatures of the
    other entities are as they were, and the signature of [e] differs at
    most in bit [IdOf(T)]. *)
Theorem AddComponent_keeps_other_components (w w' : World) T e v :
  ids_wf (cids w) → Registry_wf (registry w) →
  AddComponent T e v w = Returns tt w' →
  (∀ U cu e' x,
     ids (cids w) !! U = Some cu → U ≠ T ∨ id e' ≠ id e →
     GetComponent U e' w = Returns x w →
     GetComponent U e' w' = Returns x w') ∧
  (∀ e', id e' ≠ id e →
     entityComponentSignatures (registry w') !! N.to_nat (id e')
       = entityComponentSignatures (registry w) !! N.to_nat (id e')) ∧
  (∃ cid sig sig',
     ids (cids w') !! T = Some cid ∧
     entityComponentSignatures (registry w) !! N.to_nat (id e) = Some sig ∧
     entityComponentSignatures (registry w') !! N.to_nat (id e) = Some sig' ∧
     ∀ b, b ≠ cid → N.testbit sig' b = N.testbit sig b).
Proof.
  intros Hwf Hrwf Hadd. split_and!.
  - intros U cu e' x. by apply (AddComponent_frame w w' T e v).
  - pose proof (AddComponent_inv _ _ _ _ _ Hadd) as Hinv. cbv zeta in Hinv.
    destruct Hinv as (cid & sig & p' & _ & _ & _ & Hsigs & _).
    intros e' He'. rewrite Hsigs. apply list_lookup_insert_ne. lia.
  - pose proof (AddComponent_inv _ _ _ _ _ Hadd) as Hinv. cbv zeta in Hinv.
    destruct Hinv as (cid & sig & p' & Hid & _ & Hsig & Hsigs & _).
    exists cid, sig, (N.setbit sig cid). split_and!.
    + by eapply GetId_owns.
    + done.
    + rewrite Hsigs. apply list_lookup_insert_eq. by eapply lookup_lt_Some.
    + intros b Hb. by apply N.setbit_neq.
Qed.

Lemma Pool_GetSize_le (p : Pool) : Pool_GetSize p ≤ vec_size (data p).
Proof. unfold Pool_GetSize, wrap32. by apply N.Div0.mod_le. Qed.

(** [AddComponent] when the pool of the kind is there and reaches the
    slot of the entity: one slot and one bit are written. *)
Lemma AddComponent_covered (w : World) T e v cid st1 p sig :
  GetId T (cids w) = Returns cid st1 →
  cid < MAX_COMPONENTS →
  componentPools (registry w) !! N.to_nat cid = Some (Some p) →
  id e < Pool_GetSize p →
  entityComponentSignatures (registry w) !! N.to_nat (id e) = Some sig →
  AddComponent T e v w =
    Returns tt
      (mkWorld st1
         (with_entityComponentSignatures
            (<[N.to_nat (id e) := N.setbit sig cid]>
               (entityComponentSignatures (registry w)))
            (with_componentPools
               (<[N.to_nat cid := Some (mkPool (<[N.to_nat (id e) := v]> (data p)))]>
                  (componentPools (registry w)))
               (registry w)))).
Proof.
  intros Hid Hcid Hp Hcov Hsig.
  pose proof (AddComponent_eval w T e v cid st1 Hid (MAX_COMPONENTS_small _ Hcid))
    as Heval. cbv zeta in Heval. rewrite Heval. clear Heval.
  pose proof (lookup_lt_Some _ _ _ Hp) as Hlt.
  rewrite (decide_False (P:=vec_size (componentPools (registry w)) ≤ cid))
    by (unfold vec_size; lia).
  rewrite Hp. rewrite (decide_False (P:=Pool_GetSize p ≤ id e)) by lia.
  pose proof (Pool_GetSize_le p).
  rewrite decide_True by lia. rewrite Hsig. by rewrite decide_True.
Qed.

(** X9. A second [AddComponent<T>(e, _)] overwrites the first: it
    returns, [GetComponent<T>(e)] then reads the second value, and the
    component ids and all signatures are as the first call left them. *)
Theorem AddComponent_overwrites (w w1 : World) T e v1 v2 :
  Registry_wf (registry w) →
  AddComponent T e v1 w = Returns tt w1 →
  ∃ w2, AddComponent T e v2 w1 = Returns tt w2 ∧
        GetComponent T e w2 = Returns v2 w2 ∧
        cids w2 = cids w1 ∧
        entityComponentSignatures (registry w2)
          = entityComponentSignatures (registry w1) ∧
        length (componentPools (registry w2))
          = length (componentPools (registry w1)).
Proof.
  intros [Hnum Hbound] Hadd.
  pose proof (AddComponent_inv _ _ _ _ _ Hadd) as Hinv. cbv zeta in Hinv.
  destruct Hinv as (cid & sig & p' & Hid & Hcid & Hsig & Hsigs & _ & _ & _ & _ &
                    Hp' & Hv & _ & _ & _ & Hfit).
  pose proof (GetId_known _ _ _ (GetId_owns _ _ _ _ Hid)) as Hagain.
  assert (vec_size (data p') < UINT_MODULUS) as Hsmall.
  { apply Hfit; [done|]. intros p. apply Hbound. }
  assert (id e < Pool_GetSize p') as Hcov.
  { unfold Pool_GetSize. rewrite wrap32_small by done.
    pose proof (lookup_lt_Some _ _ _ Hv). unfold vec_size. lia. }
  assert (entityComponentSignatures (registry w1) !! N.to_nat (id e)
          = Some (N.setbit sig cid)) as Hsig1.
  { rewrite Hsigs. apply list_lookup_insert_eq. by eapply lookup_lt_Some. }
  eexists. rewrite (AddComponent_covered w1 T e v2 cid (cids w1) p' _
                      Hagain Hcid Hp' Hcov Hsig1).
  split; [done|]. simpl.
  pose proof (lookup_lt_Some _ _ _ Hp') as Hltp.
  pose proof (lookup_lt_Some _ _ _ Hv) as Hltv.
  split_and!.
  - eapply GetComponent_eval; simpl; [done| |].
    + by apply list_lookup_insert_eq.
    + simpl. by apply list_lookup_insert_eq.
  - done.
  - rewrite N_setbit_idem. by apply list_insert_id.
  - apply length_insert.
Qed.

(** X10. [RemoveComponent] clears the signature bit and leaves the pool
    alone, and [GetComponent] does not look at the signature: after
    [AddComponent<T>(e, v)] and [RemoveComponent<T>(e)] the bit of [T] is
    clear and [GetComponent<T>(e)] still returns [v]. *)
Theorem GetComponent_after_RemoveComponent (w w1 : World) T e v :
  AddComponent T e v w = Returns tt w1 →
  ∃ w2 cid sig,
    RemoveComponent T e w1 = Returns tt w2 ∧
    ids (cids w2) !! T = Some cid ∧
    entityComponentSignatures (registry w2) !! N.to_nat (id e) = Some sig ∧
    N.testbit sig cid = false ∧
    GetComponent T e w2 = Returns v w2.
Proof.
  intros Hadd.
  pose proof (AddComponent_inv _ _ _ _ _ Hadd) as Hinv. cbv zeta in Hinv.
  destruct Hinv as (cid & sig & p' & Hid & Hcid & Hsig & Hsigs & _ & _ & _ & _ &
                    Hp' & Hv & _).
  pose proof (GetId_owns _ _ _ _ Hid) as Hown.
  pose proof (GetId_known _ _ _ Hown) as Hagain.
  assert (entityComponentSignatures (registry w1) !! N.to_nat (id e)
          = Some (N.setbit sig cid)) as Hsig1.
  { rewrite Hsigs. apply list_lookup_insert_eq. by eapply lookup_lt_Some. }
  eexists _, cid, (N.clearbit (N.setbit sig cid) cid).
  rewrite (RemoveComponent_eval _ _ _ _ _ _ Hagain Hsig1).
  rewrite decide_True by done. split; [done|]. simpl. split_and!.
  - done.
  - apply list_lookup_insert_eq. by eapply lookup_lt_Some.
  - apply N.clearbit_eq.
  - by eapply GetComponent_eval.
Qed.

(** X11. [GetComponent<T>(e)] checks nothing: when the kind has no pool
    (its slot of the vector of pools is missing or null), or the pool does
    not reach the slot of the entity, the call is undefined behaviour. *)
Theorem GetComponent_without_slot (w : World) T e cid st1 :
  GetId T (cids w) = Returns cid st1 →
  (∀ p, componentPools (registry w) !! N.to_nat cid = Some (Some p) →
        vec_size (data p) ≤ id e) →
  GetComponent T e w = Undefined.
Proof.
  intros Hid Hnone. destruct w as [st r]. simpl in *.
  unfold GetComponent.
  erewrite bind_Returns by (by apply zoom_Returns). simpl.
  unfold in_reg, zoom, Entity_GetId. simpl. mstep.
  unfold vec_at at 1.
  destruct (componentPools r !! N.to_nat cid) as [[p|]|] eqn:E; try done.
  rewrite bind_mret. simpl. rewrite bind_mret.
  rewrite Pool_Get_None; [done|].
  apply lookup_ge_None. specialize (Hnone p eq_refl). unfold vec_size in Hnone. lia.
Qed.

Lemma Pool_new_lookup T (j : nat) :
  (j < 100)%nat → data (Pool_new T) !! j = Some (T_default T).
Proof. intros H. unfold Pool_new. simpl. apply vec_resize_lookup_new; simpl; lia. Qed.

(** X12. The first [AddComponent<T>] creates the pool of [T] with
    default-constructed slots: right after it, [GetComponent<T>] for any
    other entity with an id below 100 returns [T()], although that entity
    never received the component. *)
Theorem GetComponent_default_of_new_pool (w w' : World) T e v cid :
  AddComponent T e v w = Returns tt w' →
  ids (cids w') !! T = Some cid →
  (∀ p, componentPools (registry w) !! N.to_nat cid ≠ Some (Some p)) →
  ∀ e', id e' ≠ id e → id e' < 100 →
        GetComponent T e' w' = Returns (T_default T) w'.
Proof.
  intros Hadd Hcid Hnopool e' Hne He'.
  pose proof (AddComponent_inv _ _ _ _ _ Hadd) as Hinv. cbv zeta in Hinv.
  destruct Hinv as (cid0 & sig & p' & Hid & Hlt & _).
  assert (cid0 = cid) as ->
    by (pose proof (GetId_owns _ _ _ _ Hid); congruence).
  pose proof (AddComponent_eval w T e v cid (cids w') Hid (MAX_COMPONENTS_small _ Hlt))
    as Heval. cbv zeta in Heval. rewrite Hadd in Heval.
  set (pools1 := if decide (vec_size (componentPools (registry w)) ≤ cid)
                 then vec_resize (componentPools (registry w)) (cid + 1) None
                 else componentPools (registry w)) in *.
  assert (N.to_nat cid < length pools1)%nat as Hlen.
  { unfold pools1.
    destruct (decide (vec_size (componentPools (registry w)) ≤ cid)) as [Hsz|Hsz].
    - rewrite vec_resize_length. lia.
    - unfold vec_size in Hsz. lia. }
  assert (match pools1 !! N.to_nat cid with
          | Some (Some p) => p
          | _ => Pool_new T
          end = Pool_new T) as Hp0.
  { unfold pools1.
    destruct (decide (vec_size (componentPools (registry w)) ≤ cid)) as [Hsz|Hsz].
    - rewrite vec_resize_lookup_new; [done|lia|unfold vec_size in Hsz; lia].
    - specialize (Hnopool). destruct (componentPools (registry w) !! N.to_nat cid)
        as [[p|]|] eqn:E; [by destruct (Hnopool p)|done|done]. }
  rewrite Hp0 in Heval.
  set (p1 := if decide (Pool_GetSize (Pool_new T) ≤ id e)
             then Pool_Resize T (numEntities (registry w)) (Pool_new T)
             else Pool_new T) in *.
  destruct (decide (id e < vec_size (data p1))) as [Hin|]; [|done].
  destruct (entityComponentSignatures (registry w) !! N.to_nat (id e)); [|done].
  destruct (decide (cid < MAX_COMPONENTS)); [|done].
  injection Heval as ->.
  assert (data p1 !! N.to_nat (id e') = Some (T_default T)) as Hdefault.
  { unfold p1 in *.
    destruct (decide (Pool_GetSize (Pool_new T) ≤ id e)) as [Hsz|Hsz].
    - unfold Pool_GetSize in Hsz. rewrite Pool_new_size in Hsz.
      change (wrap32 100) with 100 in Hsz.
      simpl in *. rewrite vec_resize_size in Hin.
      pose proof (Pool_new_lookup T (N.to_nat (id e'))) as Hl.
      apply vec_resize_grow.
      + rewrite vec_resize_size. lia.
      + apply Hl. lia.
    - apply Pool_new_lookup. lia. }
  eapply GetComponent_eval; simpl.
  - apply GetId_known. by simpl in Hcid.
  - by apply list_lookup_insert_eq.
  - simpl. rewrite list_lookup_insert_ne by lia. done.
Qed.

(** X13. For a kind whose id does not fit the signature,
    [AddComponent] throws std::out_of_range from [bitset::set] only
    after it has created the pool and stored the component: at the throw
    the signatures and the systems are unchanged, and the pool of the kind
    holds the new value in the slot of the entity. *)
Theorem AddComponent_throws_after_storing (w : World) T e v cid st1 :
  GetId T (cids w) = Returns cid st1 →
  MAX_COMPONENTS ≤ cid →
  cid + 1 < UINT_MODULUS →
  valid_entity (registry w) e →
  ∃ w' p,
    AddComponent T e v w = Throws w' ∧
    cids w' = st1 ∧
    entityComponentSignatures (registry w')
      = entityComponentSignatures (registry w) ∧
    systems (registry w') = systems (registry w) ∧
    componentPools (registry w') !! N.to_nat cid = Some (Some p) ∧
    data p !! N.to_nat (id e) = Some v.
Proof.
  intros Hid Hbig Hsmall Hvalid.
  destruct (valid_entity_sig _ _ Hvalid) as [sig Hsig].
  destruct Hvalid as [Hnum _].
  pose proof (AddComponent_eval w T e v cid st1 Hid Hsmall) as Heval.
  cbv zeta in Heval.
  set (pools1 := if decide (vec_size (componentPools (registry w)) ≤ cid)
                 then vec_resize (componentPools (registry w)) (cid + 1) None
                 else componentPools (registry w)) in *.
  assert (N.to_nat cid < length pools1)%nat as Hlen.
  { unfold pools1.
    destruct (decide (vec_size (componentPools (registry w)) ≤ cid)) as [Hsz|Hsz].
    - rewrite vec_resize_length. lia.
    - unfold vec_size in Hsz. lia. }
  set (p0 := match pools1 !! N.to_nat cid with
             | Some (Some p) => p
             | _ => Pool_new T
             end) in *.
  set (p1 := if decide (Pool_GetSize p0 ≤ id e)
             then Pool_Resize T (numEntities (registry w)) p0 else p0) in *.
  assert (id e < vec_size (data p1)) as Hin.
  { unfold p1. destruct (decide (Pool_GetSize p0 ≤ id e)) as [Hsz|Hsz]; simpl.
    - rewrite vec_resize_size. lia.
    - pose proof (Pool_GetSize_le p0). lia. }
  rewrite decide_True, Hsig, decide_False in Heval by lia.
  eexists _, _. split; [exact Heval|]. simpl. split_and!; try done.
  - by apply list_lookup_insert_eq.
  - simpl. apply list_lookup_insert_eq. unfold vec_size in Hin. lia.
Qed.

(** X14. [AddComponent] for an entity that has no signature slot is
    undefined behaviour, whatever the state of the pools. *)
Theorem AddComponent_without_signature_slot (w : World) T e v cid st1 :
  GetId T (cids w) = Returns cid st1 →
  cid + 1 < UINT_MODULUS →
  entityComponentSignatures (registry w) !! N.to_nat (id e) = None →
  AddComponent T e v w = Undefined.
Proof.
  intros Hid Hsmall Hnone.
  pose proof (AddComponent_eval w T e v cid st1 Hid Hsmall) as Heval.
  cbv zeta in Heval. rewrite Heval, Hnone. by case_decide.
Qed.

(** X15. [RemoveComponent] fails in two ways: for an entity without a
    signature slot it is undefined behaviour; for a kind whose id does not
    fit the signature it throws std::out_of_range and leaves the registry
    exactly as it was. *)
Theorem RemoveComponent_failures (w : World) T e cid st1 :
  GetId T (cids w) = Returns cid st1 →
  (entityComponentSignatures (registry w) !! N.to_nat (id e) = None →
   RemoveComponent T e w = Undefined) ∧
  (is_Some (entityComponentSignatures (registry w) !! N.to_nat (id e)) →
   MAX_COMPONENTS ≤ cid →
   RemoveComponent T e w = Throws (mkWorld st1 (registry w))).
Proof.
  intros Hid. split.
  - intros Hnone. destruct w as [st r]. simpl in *. unfold RemoveComponent.
    erewrite bind_Returns by (by apply zoom_Returns). simpl.
    unfold in_reg, zoom, Entity_GetId. simpl. mstep.
    unfold mbind, M_bind. by rewrite (vec_at_None _ _ _ Hnone).
  - intros [sig Hsig] Hbig.
    rewrite (RemoveComponent_eval _ _ _ _ _ _ Hid Hsig).
    by rewrite decide_False by lia.
Qed.

(** X16. [RemoveComponent] is idempotent: a second call changes
    nothing, and removing a component whose bit is clear already leaves
    the registry as it was. *)
Theorem RemoveComponent_idempotent (w : World) T e cid st1 sig :
  GetId T (cids w) = Returns cid st1 →
  cid < MAX_COMPONENTS →
  entityComponentSignatures (registry w) !! N.to_nat (id e) = Some sig →
  ∃ w1, RemoveComponent T e w = Returns tt w1 ∧
        RemoveComponent T e w1 = Returns tt w1 ∧
        (N.testbit sig cid = false → registry w1 = registry w).
Proof.
  intros Hid Hcid Hsig. eexists.
  rewrite (RemoveComponent_eval _ _ _ _ _ _ Hid Hsig), decide_True by done.
  split; [done|].
  pose proof (lookup_lt_Some _ _ _ Hsig) as Hlt.
  pose proof (GetId_known _ _ _ (GetId_owns _ _ _ _ Hid)) as Hagain.
  split.
  - erewrite RemoveComponent_eval; [|exact Hagain|simpl; by apply list_lookup_insert_eq].
    rewrite decide_True by done. simpl.
    by rewrite N_clearbit_idem, list_insert_insert_eq.
  - intros Hclear. simpl. rewrite (N_clearbit_clear _ _ Hclear).
    rewrite list_insert_id by done. by destruct (registry w).
Qed.

(** X17. Components of two kinds live side by side: after
    [AddComponent<T>(e, v)] and [AddComponent<U>(e, u)] for distinct kinds,
    the kinds have distinct ids, both bits are set in the signature of
    [e], and each [GetComponent] returns its own value. *)
Theorem AddComponent_two_kinds (w w1 w2 : World) T U e v u :
  ids_wf (cids w) → Registry_wf (registry w) → U ≠ T →
  AddComponent T e v w = Returns tt w1 →
  AddComponent U e u w1 = Returns tt w2 →
  GetComponent T e w2 = Returns v w2 ∧
  GetComponent U e w2 = Returns u w2 ∧
  ∃ ct cu sig,
    ids (cids w2) !! T = Some ct ∧ ids (cids w2) !! U = Some cu ∧ ct ≠ cu ∧
    entityComponentSignatures (registry w2) !! N.to_nat (id e) = Some sig ∧
    N.testbit sig ct = true ∧ N.testbit sig cu = true.
Proof.
  intros Hwf Hrwf HUT Hadd1 Hadd2.
  pose proof (AddComponent_inv _ _ _ _ _ Hadd1) as Hinv1. cbv zeta in Hinv1.
  destruct Hinv1 as (ct & sig0 & pt & Hidt & Hct & Hsig0 & Hsigs1 & _ & _ & _ & _ &
                     Hpt & Hvt & _).
  pose proof (AddComponent_inv _ _ _ _ _ Hadd2) as Hinv2. cbv zeta in Hinv2.
  destruct Hinv2 as (cu & sig1 & pu & Hidu & Hcu & Hsig1 & Hsigs2 & _ & _ & _ & _ &
                     Hpu & Hvu & _).
  pose proof (GetId_owns _ _ _ _ Hidt) as Hownt.
  pose proof (GetId_owns _ _ _ _ Hidu) as Hownu.
  assert (ids_wf (cids w1)) as Hwf1 by (by eapply GetId_wf).
  assert (Registry_wf (registry w1)) as Hrwf1.
  { by destruct (step_pools (OpAddComponent T e v) w w1 Hrwf Hadd1). }
  assert (ids (cids w2) !! T = Some ct) as Hownt2 by (by eapply GetId_keeps).
  assert (ct ≠ cu) as Hne.
  { eapply GetId_distinct; [exact Hwf1| |exact Hidu|exact Hownt]. done. }
  assert (entityComponentSignatures (registry w1) !! N.to_nat (id e)
          = Some (N.setbit sig0 ct)) as Hs1.
  { rewrite Hsigs1. apply list_lookup_insert_eq. by eapply lookup_lt_Some. }
  assert (sig1 = N.setbit sig0 ct) as -> by congruence.
  split_and!.
  - eapply (AddComponent_frame w1 w2 U e u T ct e v);
      [done|done|done|done|by left|].
    destruct w1 as [st1 r1]. simpl in *.
    eapply GetComponent_eval; [by apply GetId_known|done|done].
  - destruct w2 as [st2 r2]. simpl in *.
    eapply GetComponent_eval; [by apply GetId_known|done|done].
  - exists ct, cu, (N.setbit (N.setbit sig0 ct) cu). split_and!; try done.
    + rewrite Hsigs2. apply list_lookup_insert_eq. by eapply lookup_lt_Some.
    + rewrite N.setbit_neq by done. apply N.setbit_eq.
    + apply N.setbit_eq.
Qed.

(** ** Systems *)



(** X18. [AddSystem<S>] followed by [RemoveSystem<S>] is a round trip:
    for a kind that is not registered and a constructor that returns, the
    first call registers the kind and touches no other, and the second
    gives back the registry the first call was made on. *)
Theorem AddSystem_then_RemoveSystem (w : World) (S : string)
    (ctor : M IdState System) newSystem st' :
  systems (registry w) !! S = None →
  ctor (cids w) = Returns newSystem st' →
  ∃ w1, AddSystem S ctor w = Returns tt w1 ∧
        cids w1 = st' ∧
        HasSystem S (registry w1) = Returns true (registry w1) ∧
        (∀ S', S' ≠ S →
               systems (registry w1) !! S' = systems (registry w) !! S') ∧
        RemoveSystem S (registry w1) = Returns tt (registry w).
Proof.
  intros Hnone Hctor. eexists.
  unfold AddSystem, in_ids, in_reg, zoom, modify, mbind, M_bind.
  rewrite Hctor. simpl. rewrite Hnone. split; [done|]. simpl.
  split; [done|]. split_and!.
  - unfold HasSystem, gets. simpl. f_equal. apply bool_decide_eq_true.
    by rewrite lookup_insert_eq.
  - intros S' Hne. by rewrite lookup_insert_ne.
  - unfold RemoveSystem, gets, modify, mbind, M_bind. simpl.
    rewrite lookup_insert_eq. simpl. rewrite delete_insert_id by done.
    by destruct (registry w).
Qed.


(** X20. A constructor returns as long as the kinds in use fit the
    signature: when the kinds seen so far together with the kinds it
    requires number at most [MAX_COMPONENTS], every
    [RequireComponent] returns, and the system built has the bit of each
    required kind. *)
Theorem RequireComponents_returns_within_capacity Ts : ∀ sys st,
  counts_kinds st → ids_wf st →
  N.of_nat (size (list_to_set Ts ∪ dom (ids st))) ≤ MAX_COMPONENTS →
  ∃ sys' st',
    RequireComponents Ts sys st = Returns sys' st' ∧
    ids_wf st' ∧ dom (ids st') = list_to_set Ts ∪ dom (ids st) ∧
    ∀ T, T ∈ Ts →
         ∃ i, ids st' !! T = Some i ∧ i < MAX_COMPONENTS ∧
              N.testbit (componentSignature sys') i = true.
Proof.
  assert (MAX_COMPONENTS < UINT_MODULUS) as Hmax.
  { unfold MAX_COMPONENTS, UINT_MODULUS. change (2 ^ 32) with 4294967296. lia. }
  induction Ts as [|T Ts IH]; intros sys st Hc Hwf Hcap.
  - exists sys, st. simpl. split; [done|]. split; [done|].
    split; [by rewrite (left_id_L ∅ (∪))|]. intros T HT.
    by apply elem_of_nil in HT.
  - destruct (GetId_returns T st) as (i & st1 & Hi & _).
    destruct (GetId_counts _ _ _ _ Hi Hc) as [Hc1 Hdom1].
    assert (size (dom (ids st1)) ≤ size (list_to_set (T :: Ts) ∪ dom (ids st)))%nat
      as Hsz.
    { apply subseteq_size. rewrite Hdom1. simpl.
      rewrite <- (assoc_L (∪)). apply union_mono_l, union_subseteq_r. }
    assert (ids_wf st1) as Hwf1.
    { eapply GetId_wf_counted; [done|done|done|]. lia. }
    assert (i < MAX_COMPONENTS) as Hfit.
    { destruct Hwf1 as [Hlt _].
      pose proof (Hlt _ _ (GetId_owns _ _ _ _ Hi)) as Hlti.
      rewrite Hc1, wrap32_small in Hlti by lia. lia. }
    destruct (IH (mkSystem (N.setbit (componentSignature sys) i) (entities sys)) st1
                Hc1 Hwf1) as (sys' & st' & Hrun & Hwf' & Hdom' & Hbits).
    { rewrite Hdom1. simpl in Hcap.
      rewrite (assoc_L (∪)), (comm_L (∪) (list_to_set Ts) {[T]}). done. }
    exists sys', st'. split.
    + simpl. unfold RequireComponent.
      unfold mbind at 1, M_bind at 1. unfold mbind at 1, M_bind at 1.
      rewrite Hi. unfold mbind at 1, M_bind at 1. unfold bitset_set.
      rewrite decide_True by done. simpl. exact Hrun.
    + split; [done|]. split.
      { rewrite Hdom', Hdom1. simpl.
        by rewrite (assoc_L (∪)), (comm_L (∪) (list_to_set Ts) {[T]}). }
      intros U HU.
      destruct (RequireComponents_inv _ _ _ _ _ Hrun) as (_ & Hkeep & _ & Hb).
      apply elem_of_cons in HU as [->|HU]; [|by apply Hbits].
      exists i. split; [apply Hkeep; by eapply GetId_owns|].
      split; [done|]. apply Hb. left. simpl. apply N.setbit_eq.
Qed.

End Properties.

(** * Concrete runs *)

#[local] Existing Instance sprite_kinds.

(** ** The model at work *)

Example CreateEntity_first :
  in_reg CreateEntity World_init = Returns e0 world_one_entity.
Proof. vm_compute. reflexivity. Qed.

Example GetIds_repeated_kind :
  GetIds ["A"; "B"; "A"] IdState_init = Returns [0; 1; 0] (cids world_AB).
Proof. vm_compute. reflexivity. Qed.

Example RequireComponents_either_order :
  RequireComponents ["A"; "B"] System_new (cids world_AB)
    = Returns system_AB (cids world_AB) ∧
  RequireComponents ["B"; "A"] System_new (cids world_AB)
    = Returns system_AB (cids world_AB).
Proof. split; vm_compute; reflexivity. Qed.

(** The first five operations of the frame: entity 0 is in [S] and its
    component of kind [A] reads back as written. *)
Example frame_first_Update :
  ∃ w, run (take 5 frame_ops) World_init = Returns tt w ∧
       systems (registry w) !! "S" = Some (mkSystem 3 [e0]) ∧
       GetComponent "A" e0 w = Returns (mkSpriteComponent 1 2) w.
Proof.
  eexists. split; [vm_compute; reflexivity|].
  split; vm_compute; reflexivity.
Qed.

(** An id of 32 or more does not fit the signature: declaring the kind
    throws. *)
Example RequireComponent_33rd_kind_throws :
  RequireComponent "C32" System_new (mkIdState 33 {["C32" := 32]})
    = Throws (mkIdState 33 {["C32" := 32]}).
Proof. reflexivity. Qed.

(** ** Matching (C1) *)

(** After the second [Update()] of the frame, system [S], which requires
    [A] and [B], still holds entity 0, whose [A] bit is clear: [Update]
    adds and kills, it never takes a member out for a bit it lost. *)
Lemma stale_member_after_RemoveComponent :
  ∃ w sys,
    run frame_ops World_init = Returns tt w ∧
    last frame_ops = Some OpUpdate ∧
    GetSystem "S" (registry w) = Returns sys (registry w) ∧
    RequireComponents ["A"; "B"] System_new (cids w)
      = Returns (mkSystem (GetComponentSignature sys) []) (cids w) ∧
    e0 ∈ GetSystemEntities sys ∧
    ids (cids w) !! "A" = Some 0 ∧
    entityComponentSignatures (registry w) !! N.to_nat (id e0) = Some 2 ∧
    N.testbit 2 0 = false ∧
    HasComponent "A" e0 w = Returns false w.
Proof.
  eexists _, _. split; [vm_compute; reflexivity|].
  split; [reflexivity|]. split; [vm_compute; reflexivity|].
  split; [vm_compute; reflexivity|]. split; [by left|].
  split; [vm_compute; reflexivity|]. split; [reflexivity|].
  split; [reflexivity|]. vm_compute. reflexivity.
Qed.

Lemma matching_rule_at_registry_AB :
  ∃ r' sys',
    AddEntityToSystems e0 registry_AB = Returns tt r' ∧
    systems r' !! "S" = Some sys' ∧ e0 ∈ GetSystemEntities sys'.
Proof.
  destruct (proj1 (@matching_rule_superset_test SpriteComponent)
              registry_AB e0 3 eq_refl)
    as (r' & Hrun & _ & Hrel).
  destruct (systems_related_lookup _ _ _ "S" system_AB Hrel eq_refl)
    as (sys' & HS & _ & Hin & _).
  exists r', sys'. split; [exact Hrun|]. split; [exact HS|].
  apply Hin. right. reflexivity.
Defined.

(** ** Update (C2) *)

(** [Update()] on the registry above flushes entity 0 into [S]. *)
Lemma Update_at_registry_AB :
  ∃ r' sys',
    Update registry_AB = Returns tt r' ∧
    entitiesToBeAdded r' = ∅ ∧ entitiesToBeKilled r' = ∅ ∧
    systems r' !! "S" = Some sys' ∧ e0 ∈ GetSystemEntities sys'.
Proof.
  destruct (proj2 (proj2 (proj2 (proj2 (proj2
              (@membership_changes_only_in_Update SpriteComponent _)))))
              registry_AB) as (r' & Hrun & Ha & Hk & Hrel).
  { intros e He. simpl in He. apply elem_of_singleton in He as ->. by exists 3. }
  destruct (systems_related_lookup _ _ _ "S" system_AB Hrel eq_refl)
    as (sys' & HS & _ & Hin).
  exists r', sys'. split_and!; try done.
  apply Hin. split; [|by apply not_elem_of_empty].
  right. split; [simpl; by apply elem_of_singleton|]. by exists 3.
Defined.

(** ** AddComponent (C3) *)

Lemma AddComponent_sprite_to_entity_0 :
  ∃ w', AddComponent "SpriteComponent" e0 (mkSpriteComponent 32 32)
          world_one_entity = Returns tt w' ∧
        HasComponent "SpriteComponent" e0 w' = Returns true w' ∧
        GetComponent "SpriteComponent" e0 w' = Returns (mkSpriteComponent 32 32) w'.
Proof.
  destruct (AddComponent_then_Has_and_Get world_one_entity
              "SpriteComponent" e0 (mkSpriteComponent 32 32)) as [Hpost Hret].
  destruct (Hret 0 (mkIdState 1 {["SpriteComponent" := 0]})) as [w' Hadd].
  - split; reflexivity.
  - reflexivity.
  - reflexivity.
  - exists w'. split; [exact Hadd|]. by apply Hpost.
Defined.

(** ** RemoveComponent (C4) *)

Lemma GetIds_wf Ts : ∀ st results st',
  GetIds Ts st = Returns results st' →
  Forall (λ i, i < MAX_COMPONENTS) results → ids_wf st → ids_wf st'.
Proof.
  induction Ts as [|T Ts IH]; intros st results st' Hrun Hall Hwf.
  - by injection Hrun as <- <-.
  - apply GetIds_cons_inv in Hrun as (i & st1 & rest & Hi & Hrest & ->).
    apply Forall_cons in Hall as [Hlt Hall].
    eapply IH; [done|done|]. by eapply GetId_wf.
Qed.

Lemma world_AB_reached :
  GetIds ["A"; "B"] IdState_init = Returns [0; 1] (cids world_AB).
Proof. vm_compute. reflexivity. Qed.

Lemma ids_wf_world_AB : ids_wf (cids world_AB).
Proof.
  eapply GetIds_wf; [exact world_AB_reached| |exact ids_wf_init].
  repeat constructor.
Qed.



(** ** More than 32 kinds (C6) *)

(** The 33rd kind of a run gets id 32 from [GetId], which returns as for
    any other kind: no assertion fails. *)
Lemma GetId_33rd_kind_returns_32 :
  ∃ st st',
    GetIds (kinds 32) IdState_init = Returns (N.of_nat <$> seq 0 32) st ∧
    ("C32" ∉ kinds 32) ∧
    GetId "C32" st = Returns 32 st' ∧
    ¬ fails_fast (GetId "C32" st) ∧
    ¬ (32 < MAX_COMPONENTS).
Proof.
  eexists _, _. split; [vm_compute; reflexivity|].
  split.
  { vm_compute. intros H.
    repeat (apply elem_of_cons in H as [H|H]; [discriminate|]). inversion H. }
  split; [vm_compute; reflexivity|]. split; [by intros []|]. by intros H.
Qed.

Lemma GetId_unchecked_33rd_kind :
  ∃ results st st',
    GetIds (kinds 32) IdState_init = Returns results st ∧
    GetId "C32" st = Returns 32 st' ∧
    ∀ sys, RequireComponent "C32" sys st = Throws st'.
Proof.
  destruct (GetId_unchecked_beyond_MAX_COMPONENTS (kinds 32) "C32")
    as (results & st & st' & Hrun & Hid & Hthrow).
  { vm_compute. intros H.
    repeat (apply elem_of_cons in H as [H|H]; [discriminate|]). inversion H. }
  exists results, st, st'. split; [exact Hrun|].
  split; [exact Hid|]. apply Hthrow. by vm_compute.
Defined.

(** ** Pools (C7) *)



(** ** GetSystem (C8) *)

(** In a registry with no system at all, [GetSystem] has undefined
    behaviour; nothing stops the process. *)
Lemma GetSystem_absent_is_undefined :
  HasSystem "RenderSystem" (@Registry_new SpriteComponent)
    = Returns false Registry_new ∧
  GetSystem "RenderSystem" (@Registry_new SpriteComponent) = Undefined ∧
  ¬ fails_fast (GetSystem "RenderSystem" (@Registry_new SpriteComponent)).
Proof. split; [reflexivity|]. split; [reflexivity|]. by intros []. Qed.

(** ** AddSystem (C9) *)

Lemma AddSystem_S_twice :
  AddSystem "S" (RequireComponents ["B"] System_new) world_S
    = Returns tt world_S ∧
  GetSystem "S" (registry world_S) = Returns (mkSystem 3 [e0]) (registry world_S).
Proof.
  destruct (AddSystem_keeps_registered world_S "S"
              (RequireComponents ["B"] System_new) (mkSystem 3 [e0]) eq_refl)
    as [Hkeep Hret].
  split.
  - exact (Hret (mkSystem 2 []) (cids world_S) eq_refl).
  - apply (Hkeep world_S). by rewrite (Hret (mkSystem 2 []) (cids world_S) eq_refl).
Defined.


(** ** Pool accessors *)

Lemma Pool_Set_then_Get_slot_7 :
  ∃ p', Pool_Set 7 (mkSpriteComponent 32 32) (Pool_new "SpriteComponent") tt
          = Returns p' tt ∧
        Pool_Get 7 p' tt = Returns (mkSpriteComponent 32 32) tt ∧
        Pool_GetSize p' = 100.
Proof.
  destruct (Pool_Set_then_Get (St:=unit) (Pool_new "SpriteComponent") 7
              (mkSpriteComponent 32 32) tt) as (p' & Hset & Hget & _ & _ & Hsz & _).
  { by vm_compute. }
  exists p'. split; [exact Hset|]. split; [exact Hget|]. by rewrite Hsz.
Defined.

Lemma Pool_new_slot_100_out_of_range :
  Pool_Get 100 (Pool_new "SpriteComponent") tt = Undefined ∧
  Pool_index 100 (Pool_new "SpriteComponent") tt = Undefined ∧
  Pool_Set 100 (mkSpriteComponent 1 1) (Pool_new "SpriteComponent") tt = Undefined.
Proof.
  apply (Pool_access_out_of_range (St:=unit) (Pool_new "SpriteComponent") 100
           (mkSpriteComponent 1 1) tt).
  by vm_compute.
Defined.

(** ** Component identities *)

Lemma GetId_distinct_in_A_B_A :
  ∃ results st,
    GetIds ["A"; "B"; "A"] IdState_init = Returns results st ∧
    ∀ k1 k2 T U i,
      ["A"; "B"; "A"] !! k1 = Some T → ["A"; "B"; "A"] !! k2 = Some U →
      results !! k1 = Some i → results !! k2 = Some i → T = U.
Proof.
  apply (GetId_distinct_kinds_distinct_ids ["A"; "B"; "A"]). by vm_compute.
Defined.

(** ** Components of an entity *)

Lemma Registry_wf_world_one_entity : Registry_wf (registry world_one_entity).
Proof. split; [reflexivity|]. intros i p. simpl. by rewrite lookup_nil. Qed.

Lemma Registry_wf_world_AB : Registry_wf (registry world_AB).
Proof. split; [reflexivity|]. intros i p. simpl. by rewrite lookup_nil. Qed.

Lemma AddComponent_A_keeps_B_of_entity_0 :
  ∃ w', AddComponent "A" e0 (mkSpriteComponent 32 32) world_AB = Returns tt w' ∧
        ∃ cid sig sig',
          ids (cids w') !! "A" = Some cid ∧
          entityComponentSignatures (registry world_AB) !! N.to_nat (id e0)
            = Some sig ∧
          entityComponentSignatures (registry w') !! N.to_nat (id e0)
            = Some sig' ∧
          ∀ b, b ≠ cid → N.testbit sig' b = N.testbit sig b.
Proof.
  pose (w' := default world_AB
                (final_state (AddComponent "A" e0 (mkSpriteComponent 32 32) world_AB))).
  assert (AddComponent "A" e0 (mkSpriteComponent 32 32) world_AB = Returns tt w')
    as Hadd by (vm_compute; reflexivity).
  exists w'. split; [exact Hadd|].
  exact (proj2 (proj2 (AddComponent_keeps_other_components world_AB w' "A" e0
                         (mkSpriteComponent 32 32) ids_wf_world_AB
                         Registry_wf_world_AB Hadd))).
Defined.

Lemma AddComponent_sprite_twice :
  ∃ w1 w2,
    AddComponent "SpriteComponent" e0 (mkSpriteComponent 32 32) world_one_entity
      = Returns tt w1 ∧
    AddComponent "SpriteComponent" e0 (mkSpriteComponent 64 16) w1 = Returns tt w2 ∧
    GetComponent "SpriteComponent" e0 w2 = Returns (mkSpriteComponent 64 16) w2.
Proof.
  pose (w1 := default world_one_entity
                (final_state (AddComponent "SpriteComponent" e0
                                (mkSpriteComponent 32 32) world_one_entity))).
  assert (AddComponent "SpriteComponent" e0 (mkSpriteComponent 32 32)
            world_one_entity = Returns tt w1) as Hadd by (vm_compute; reflexivity).
  destruct (AddComponent_overwrites world_one_entity w1 "SpriteComponent" e0
              (mkSpriteComponent 32 32) (mkSpriteComponent 64 16)
              Registry_wf_world_one_entity Hadd) as (w2 & Hadd2 & Hget & _).
  by exists w1, w2.
Defined.

Lemma GetComponent_sprite_after_RemoveComponent :
  ∃ w1 w2,
    AddComponent "SpriteComponent" e0 (mkSpriteComponent 32 32) world_one_entity
      = Returns tt w1 ∧
    RemoveComponent "SpriteComponent" e0 w1 = Returns tt w2 ∧
    GetComponent "SpriteComponent" e0 w2 = Returns (mkSpriteComponent 32 32) w2.
Proof.
  pose (w1 := default world_one_entity
                (final_state (AddComponent "SpriteComponent" e0
                                (mkSpriteComponent 32 32) world_one_entity))).
  assert (AddComponent "SpriteComponent" e0 (mkSpriteComponent 32 32)
            world_one_entity = Returns tt w1) as Hadd by (vm_compute; reflexivity).
  destruct (GetComponent_after_RemoveComponent world_one_entity w1
              "SpriteComponent" e0 (mkSpriteComponent 32 32) Hadd)
    as (w2 & cid & sig & Hrem & _ & _ & _ & Hget).
  by exists w1, w2.
Defined.

Lemma GetComponent_before_any_AddComponent :
  GetComponent "SpriteComponent" e0 world_one_entity = Undefined.
Proof.
  apply (GetComponent_without_slot world_one_entity "SpriteComponent" e0 0
           (mkIdState 1 {["SpriteComponent" := 0]})).
  - reflexivity.
  - intros p Hp. vm_compute in Hp. discriminate Hp.
Defined.

Lemma GetComponent_sprite_of_entity_1_is_default :
  ∃ w', AddComponent "SpriteComponent" e0 (mkSpriteComponent 32 32)
          world_one_entity = Returns tt w' ∧
        GetComponent "SpriteComponent" (mkEntity 1) w'
          = Returns SpriteComponent_default w'.
Proof.
  pose (w' := default world_one_entity
                (final_state (AddComponent "SpriteComponent" e0
                                (mkSpriteComponent 32 32) world_one_entity))).
  assert (AddComponent "SpriteComponent" e0 (mkSpriteComponent 32 32)
            world_one_entity = Returns tt w') as Hadd by (vm_compute; reflexivity).
  exists w'. split; [exact Hadd|].
  apply (GetComponent_default_of_new_pool world_one_entity w' "SpriteComponent"
           e0 (mkSpriteComponent 32 32) 0 Hadd).
  - vm_compute. reflexivity.
  - intros p Hp. vm_compute in Hp. discriminate Hp.
  - by vm_compute.
  - by vm_compute.
Defined.

Lemma AddComponent_of_kind_32_throws :
  ∃ w' p,
    AddComponent "C32" e0 (mkSpriteComponent 32 32) world_kind_32 = Throws w' ∧
    cids w' = cids world_kind_32 ∧
    entityComponentSignatures (registry w') = [0] ∧
    systems (registry w') = ∅ ∧
    componentPools (registry w') !! 32%nat = Some (Some p) ∧
    data p !! 0%nat = Some (mkSpriteComponent 32 32).
Proof.
  apply (AddComponent_throws_after_storing world_kind_32 "C32" e0
           (mkSpriteComponent 32 32) 32 (cids world_kind_32)).
  - reflexivity.
  - by vm_compute.
  - by vm_compute.
  - split; by vm_compute.
Defined.

Lemma AddComponent_before_CreateEntity :
  AddComponent "SpriteComponent" e0 (mkSpriteComponent 32 32) World_init
    = Undefined.
Proof.
  apply (AddComponent_without_signature_slot World_init "SpriteComponent" e0
           (mkSpriteComponent 32 32) 0 (mkIdState 1 {["SpriteComponent" := 0]})).
  - reflexivity.
  - by vm_compute.
  - reflexivity.
Defined.

Lemma RemoveComponent_of_kind_32_throws :
  RemoveComponent "C32" e0 world_kind_32 = Throws world_kind_32.
Proof.
  apply (proj2 (RemoveComponent_failures world_kind_32 "C32" e0 32
                  (cids world_kind_32) eq_refl)).
  - by exists 0.
  - by vm_compute.
Defined.

Lemma RemoveComponent_A_twice :
  ∃ w1, RemoveComponent "A" e0 world_AB = Returns tt w1 ∧
        RemoveComponent "A" e0 w1 = Returns tt w1.
Proof.
  destruct (RemoveComponent_idempotent world_AB "A" e0 0 (cids world_AB) 3)
    as (w1 & H1 & H2 & _).
  - reflexivity.
  - by vm_compute.
  - reflexivity.
  - by exists w1.
Defined.

Lemma AddComponent_A_then_B :
  ∃ w1 w2,
    AddComponent "A" e0 (mkSpriteComponent 1 2) world_one_entity = Returns tt w1 ∧
    AddComponent "B" e0 (mkSpriteComponent 5 0) w1 = Returns tt w2 ∧
    GetComponent "A" e0 w2 = Returns (mkSpriteComponent 1 2) w2 ∧
    GetComponent "B" e0 w2 = Returns (mkSpriteComponent 5 0) w2.
Proof.
  pose (w1 := default world_one_entity
                (final_state (AddComponent "A" e0 (mkSpriteComponent 1 2)
                                world_one_entity))).
  pose (w2 := default w1
                (final_state (AddComponent "B" e0 (mkSpriteComponent 5 0) w1))).
  assert (AddComponent "A" e0 (mkSpriteComponent 1 2) world_one_entity
            = Returns tt w1) as H1 by (vm_compute; reflexivity).
  assert (AddComponent "B" e0 (mkSpriteComponent 5 0) w1 = Returns tt w2)
    as H2 by (vm_compute; reflexivity).
  destruct (AddComponent_two_kinds world_one_entity w1 w2 "A" "B" e0
              (mkSpriteComponent 1 2) (mkSpriteComponent 5 0)
              ids_wf_init Registry_wf_world_one_entity) as (HA & HB & _);
    [discriminate|exact H1|exact H2|].
  by exists w1, w2.
Defined.

(** ** Systems *)

Lemma AddSystem_S_then_RemoveSystem :
  ∃ w1, AddSystem "S" (RequireComponents ["A"; "B"] System_new) world_AB
          = Returns tt w1 ∧
        HasSystem "S" (registry w1) = Returns true (registry w1) ∧
        RemoveSystem "S" (registry w1) = Returns tt (registry world_AB).
Proof.
  destruct (AddSystem_then_RemoveSystem world_AB "S"
              (RequireComponents ["A"; "B"] System_new) system_AB (cids world_AB))
    as (w1 & Hadd & _ & Hhas & _ & Hrem).
  - reflexivity.
  - vm_compute. reflexivity.
  - by exists w1.
Defined.


Lemma RequireComponents_A_B_returns :
  ∃ sys' st',
    RequireComponents ["A"; "B"] System_new IdState_init = Returns sys' st' ∧
    ids_wf st'.
Proof.
  destruct (RequireComponents_returns_within_capacity ["A"; "B"] System_new
              IdState_init) as (sys' & st' & Hrun & Hwf & _).
  - vm_compute. reflexivity.
  - exact ids_wf_init.
  - by vm_compute.
  - by exists sys', st'.
Defined.
